(** * PVSS engine of dnode-go: polynomial shares, DLEQ proofs, hash-to-curve

    A shallow embedding of the Go package [pvss] (big-integer arithmetic,
    hash-to-point search, share polynomial, Chaum-Pedersen proof
    generation, share encryption and decryption entry points) together
    with the properties the design document states about it.

    Conventions.
    - [*big.Int] is [Z]; [[]byte] is [list byte]; a Go [int] is [Z].
    - A run-time panic (index out of range, negative [make]) is [None].
    - [crypto/rand] is a stream of draws indexed by the number of draws
      made so far; code that draws lives in the state monad [M].
    - The curve [secp256k1.S256()] and the Keccak sponge are libraries
      outside the package: the package code is parameterised by them, and
      executable instances are given further down. *)

From Stdlib Require Import Strings.String.
From Stdlib Require Import ZArith Lia List Bool Zpow_facts Znumtheory.
From Stdlib Require Import Strings.Byte.
Import ListNotations.
Local Open Scope Z_scope.

(** ** math/big *)

Module BigInt.

Definition byte_of_Z (z : Z) : byte :=
  match Byte.of_N (Z.to_N (z mod 256)) with
  | Some b => b
  | None => x00
  end.

Definition Z_of_byte (b : byte) : Z := Z.of_N (Byte.to_N b).

(** [SetBytes] reads a big-endian unsigned integer. *)
Definition SetBytes (buf : list byte) : Z :=
  fold_left (fun acc b => acc * 256 + Z_of_byte b) buf 0.

(** Little-endian base-256 digits of a non-negative integer, most
    significant digit non-zero. *)
Fixpoint digits (fuel : nat) (z : Z) : list byte :=
  match fuel with
  | O => []
  | S fuel' =>
      if z <=? 0 then [] else byte_of_Z z :: digits fuel' (z / 256)
  end.

(** [Bytes] is the big-endian encoding of the absolute value, without
    leading zero bytes (so [Bytes 0] is empty). *)
Definition Bytes (z : Z) : list byte :=
  rev (digits (Z.to_nat (Z.log2 (Z.abs z)) + 1) (Z.abs z)).

(** [Exp x y m] for [0 <= y] and [0 < m]: [x ** y mod m]. *)
Definition Exp (x y m : Z) : Z := Zpow_mod x y m.

(** Extended Euclid on non-negative arguments: [egcd fuel a b] returns
    [(d, u)] with [d = gcd a b] and [u * a = d (mod b)]. *)
Fixpoint egcd (fuel : nat) (r0 u0 r1 u1 : Z) : Z * Z :=
  match fuel with
  | O => (r0, u0)
  | S fuel' =>
      if r1 =? 0 then (r0, u0)
      else egcd fuel' r1 u1 (r0 mod r1) (u0 - (r0 / r1) * u1)
  end.

(** [ModInverse g n]: the inverse of [g] in Z/nZ, [None] (Go: nil, the
    receiver unchanged) when [g] and [n] are not coprime. *)
Definition ModInverse (g n : Z) : option Z :=
  let n := Z.abs n in
  let g := if g <? 0 then g mod n else g in
  let '(d, u) := egcd (2 * Z.to_nat (Z.log2 n) + 4) g 1 n 0 in
  if d =? 1 then Some (u mod n)
  else None.

End BigInt.

Import BigInt.

(** ** Package constants *)

Definition fieldOrder : Z :=
  0xfffffffffffffffffffffffffffffffffffffffffffffffffffffffefffffc2f.
Definition generatorOrder : Z :=
  0xfffffffffffffffffffffffffffffffebaaedce6af48a03bbfd25e8cd0364141.
Definition sqRoot : Z :=
  0x3fffffffffffffffffffffffffffffffffffffffffffffffffffffffbfffff0c.

(** ** Data types *)

Module Point.
Record t : Type := mk { x : Z; y : Z }.
End Point.
Abbreviation Point := Point.t.

Module DLEQProof.
Record t : Type := mk {
  c : Z;
  r : Z;
  vG : Point;
  vH : Point;
  xG : Point;
  xH : Point
}.
End DLEQProof.
Abbreviation DLEQProof := DLEQProof.t.

Module PrimaryPolynomial.
Record t : Type := mk { coeff : list Z; threshold : Z }.
End PrimaryPolynomial.
Abbreviation PrimaryPolynomial := PrimaryPolynomial.t.

Module PrimaryShares.
Record t : Type := mk { Index : Z; Value : Z }.
End PrimaryShares.
Abbreviation PrimaryShares := PrimaryShares.t.

Module NodeList.
Record t : Type := mk { Nodes : list Point }.
End NodeList.
Abbreviation NodeList := NodeList.t.

(** [ecdsa.PrivateKey]: the public point and the private scalar [D]. *)
Module PrivateKey.
Record t : Type := mk { X : Z; Y : Z; D : Z }.
End PrivateKey.
Abbreviation PrivateKey := PrivateKey.t.

(** ** External libraries, as the package sees them *)

(** The curve object [s = secp256k1.S256()]: base point coordinates and
    the scalar multiplications and point addition of [elliptic.Curve].
    Scalars are passed as big-endian byte strings. *)
Record KoblitzCurve : Type := {
  Gx : Z;
  Gy : Z;
  ScalarBaseMult : list byte -> Z * Z;
  ScalarMult : Z -> Z -> list byte -> Z * Z;
  Add : Z -> Z -> Z -> Z -> Z * Z
}.

(** ** The state monad of random draws *)

Definition M (A : Type) : Type := nat -> A * nat.

Definition ret {A : Type} (a : A) : M A := fun k => (a, k).

Definition bind {A B : Type} (m : M A) (f : A -> M B) : M B :=
  fun k => let '(a, k') := m k in f a k'.

Notation "x <- m ;; f" := (bind m (fun x => f))
  (at level 61, m at next level, right associativity).

Fixpoint replicateM {A : Type} (n : nat) (m : M A) : M (list A) :=
  match n with
  | O => ret []
  | S n' => a <- m ;; l <- replicateM n' m ;; ret (a :: l)
  end.

(** ** The package *)

Section Package.

Variable s : KoblitzCurve.

(** [sha3.NewKeccak256()] followed by [Write] and [Sum(nil)]. *)
Variable Sum256 : list byte -> list byte.

(** The values [rand.Reader] yields, in order. *)
Variable reader : nat -> Z.

Definition G : Point := Point.mk (Gx s) (Gy s).

Definition Keccak256 (data : list (list byte)) : list byte :=
  Sum256 (concat data).

(** One pass through the body of the search loop of [hashToPoint]:
    [Some y] when the candidate [x] is accepted. *)
Definition hashToPoint_try (x : Z) : option Z :=
  let beta := Exp x 3 fieldOrder in
  let beta := beta + 7 in
  let beta := beta mod fieldOrder in
  let y := Exp beta sqRoot fieldOrder in
  if Exp y 2 fieldOrder =? beta then Some y else None.

(** The [for { ... }] loop, unrolled at most [fuel] times; [None] when
    the fuel is used up before a candidate is accepted. *)
Fixpoint hashToPoint_loop (fuel : nat) (x : Z) : option Point :=
  match fuel with
  | O => None
  | S fuel' =>
      match hashToPoint_try x with
      | Some y => Some (Point.mk x y)
      | None => hashToPoint_loop fuel' (x + 1)
      end
  end.

Definition hashToPoint (fuel : nat) (data : list byte) : option Point :=
  let keccakHash := Keccak256 [data] in
  let x := SetBytes keccakHash in
  hashToPoint_loop fuel x.

(** The second generator, [H = hashToPoint(G.x.Bytes())]. *)
Definition H (fuel : nat) : option Point :=
  hashToPoint fuel (Bytes (Point.x G)).

(** [rand.Int(rand.Reader, fieldOrder)]: a draw in [0, fieldOrder). *)
Definition randomBigInt : M Z :=
  fun k => (reader k mod fieldOrder, S k).


(** The loop of [polyEval], [n] iterations left, at index [i]. *)
Fixpoint polyEval_loop (coeff : list Z) (n i : nat) (xi sum : Z) : option Z :=
  match n with
  | O => Some sum
  | S n' =>
      match nth_error coeff i with
      | None => None
      | Some ci =>
          let tmp := xi * ci in
          let sum := sum + tmp in
          let sum := sum mod fieldOrder in
          let xi := xi * xi in
          let xi := xi mod fieldOrder in
          polyEval_loop coeff n' (S i) xi sum
      end
  end.

Definition polyEval (polynomial : PrimaryPolynomial) (x : Z) : option Z :=
  let xi := x in
  let sum := 0 in
  match nth_error (PrimaryPolynomial.coeff polynomial) 0 with
  | None => None
  | Some c0 =>
      let sum := sum + c0 in
      polyEval_loop (PrimaryPolynomial.coeff polynomial)
        (Z.to_nat (PrimaryPolynomial.threshold polynomial - 1)) 1 xi sum
  end.

(** [mapM] over options: the first panic aborts. *)
Fixpoint sequence {A : Type} (l : list (option A)) : option (list A) :=
  match l with
  | [] => Some []
  | None :: _ => None
  | Some a :: l' =>
      match sequence l' with
      | Some r => Some (a :: r)
      | None => None
      end
  end.

Definition getShares (polynomial : PrimaryPolynomial) (n : Z) : option (list Z) :=
  if n <? 0 then None
  else sequence (map (fun i => polyEval polynomial (Z.of_nat i + 1))
                     (seq 0 (Z.to_nat n))).

Definition getCommit (polynomial : PrimaryPolynomial) (threshold : Z)
  : option (list Point) :=
  if threshold <? 0 then None
  else sequence
         (map (fun i =>
                 match nth_error (PrimaryPolynomial.coeff polynomial) i with
                 | None => None
                 | Some ci =>
                     let '(x, y) := ScalarBaseMult s (Bytes ci) in
                     Some (Point.mk x y)
                 end)
              (seq 0 (Z.to_nat threshold))).

(** The byte string hashed into the challenge. *)
Definition challengeBytes (points : list Point) : list byte :=
  fold_left (fun cb element =>
               (cb ++ Bytes (Point.x element)) ++ Bytes (Point.y element))
            points [].

Definition createDlEQProof (secret : Z) (nodePubKey : Point) : M DLEQProof :=
  let '(x, y) := ScalarBaseMult s (Bytes secret) in
  let xG := Point.mk x y in
  let '(x2, y2) :=
    ScalarMult s (Point.x nodePubKey) (Point.y nodePubKey) (Bytes secret) in
  let xH := Point.mk x2 y2 in
  v <- randomBigInt ;;
  let '(x3, y3) := ScalarBaseMult s (Bytes v) in
  let '(x4, y4) :=
    ScalarMult s (Point.x nodePubKey) (Point.y nodePubKey) (Bytes v) in
  let vG := Point.mk x3 y3 in
  let vH := Point.mk x4 y4 in
  let cb := challengeBytes [xG; xH; vG; vH] in
  let hashed := Keccak256 [cb] in
  let c := SetBytes hashed in
  let r := c * secret in
  let r := r mod fieldOrder in
  let r := v - r in
  ret (DLEQProof.mk c r vG vH xG xH).

(** The [for i := range nodes] loop of [batchCreateDLEQProof]; the
    lengths are equal when it runs. *)
Fixpoint batchCreateDLEQProof_loop (nodes : list Point)
    (shares : list PrimaryShares) : M (list DLEQProof) :=
  match nodes, shares with
  | node :: nodes', share :: shares' =>
      p <- createDlEQProof (PrimaryShares.Value share) node ;;
      ps <- batchCreateDLEQProof_loop nodes' shares' ;;
      ret (p :: ps)
  | _, _ => ret []
  end.

(** [None] is the nil slice returned on a length mismatch. *)
Definition batchCreateDLEQProof (nodes : list Point)
    (shares : list PrimaryShares) : M (option (list DLEQProof)) :=
  if negb (Nat.eqb (length nodes) (length shares)) then ret None
  else ps <- batchCreateDLEQProof_loop nodes shares ;; ret (Some ps).

(** What [encShares] holds when it reaches its final [Println]: the
    function returns nothing, and these three slices are all it built. *)
Record encSharesLocals : Type := {
  encryptedShares : list Z;
  shares : list Z;
  commits : list Point
}.

Definition encShares (nodes : list Point) (secret : Z) (threshold : Z)
  : M (option encSharesLocals) :=
  let n := Z.of_nat (length nodes) in
  let encryptedShares := repeat 0 (Z.to_nat n) in
  if threshold <=? 0 then ret None
  else
    rest <- replicateM (Z.to_nat (threshold - 1)) randomBigInt ;;
    let coeff := secret :: rest in
    let polynomial := PrimaryPolynomial.mk coeff threshold in
    match getShares polynomial n with
    | None => ret None
    | Some shares =>
        match getCommit polynomial threshold with
        | None => ret None
        | Some commits =>
            ret (Some (Build_encSharesLocals encryptedShares shares commits))
        end
    end.

(** [DecShare] computes a modular inverse into a local and returns a
    fresh zero [big.Int]. *)
Definition DecShare (encShareX encShareY consistencyProof : Z)
    (key : PrivateKey) : Z :=
  let modInv := 0 in
  let modInv :=
    match ModInverse generatorOrder (PrivateKey.D key) with
    | Some z => z
    | None => modInv
    end in
  let i := 0 in
  i.

End Package.

(** ** Keccak-256, the instance of [Sum256] the package links against

    Keccak-f[1600] on 25 lanes of 64 bits (lane [(x, y)] at index
    [x + 5 * y]), rate 136 bytes, padding byte [0x01] ... [0x80],
    32 bytes of output. *)

Module Keccak.

Definition mask64 : Z := 0xffffffffffffffff.

Definition rotl (v : Z) (n : Z) : Z :=
  Z.land (Z.lor (Z.shiftl v n) (Z.shiftr v (64 - n))) mask64.

Definition lane (A : list Z) (i : nat) : Z := nth i A 0.

Definition RC : list Z :=
  [0x0000000000000001; 0x0000000000008082; 0x800000000000808A;
   0x8000000080008000; 0x000000000000808B; 0x0000000080000001;
   0x8000000080008081; 0x8000000000008009; 0x000000000000008A;
   0x0000000000000088; 0x0000000080008009; 0x000000008000000A;
   0x000000008000808B; 0x800000000000008B; 0x8000000000008089;
   0x8000000000008003; 0x8000000000008002; 0x8000000000000080;
   0x000000000000800A; 0x800000008000000A; 0x8000000080008081;
   0x8000000000008080; 0x0000000080000001; 0x8000000080008008].

(** Rotation offsets, indexed like the lanes. *)
Definition rho : list Z :=
  [0; 1; 62; 28; 27; 36; 44; 6; 55; 20; 3; 10; 43; 25; 39; 41; 45; 15;
   21; 8; 18; 2; 61; 56; 14].

Definition theta (A : list Z) : list Z :=
  let C := map (fun x => Z.lxor (lane A x) (Z.lxor (lane A (x + 5))
                 (Z.lxor (lane A (x + 10)) (Z.lxor (lane A (x + 15))
                 (lane A (x + 20)))))) (seq 0 5) in
  let D := map (fun x => Z.lxor (lane C ((x + 4) mod 5))
                                (rotl (lane C ((x + 1) mod 5)) 1)) (seq 0 5) in
  map (fun i => Z.lxor (lane A i) (lane D (i mod 5))) (seq 0 25).

(** rho and pi together: lane [(x, y)] of the result is lane
    [((x + 3 * y) mod 5, x)] of the input, rotated. *)
Definition rho_pi (A : list Z) : list Z :=
  map (fun j =>
         let x := (j mod 5)%nat in
         let y := (j / 5)%nat in
         let src := (((x + 3 * y) mod 5) + 5 * x)%nat in
         rotl (lane A src) (nth src rho 0))
      (seq 0 25).

Definition chi (B : list Z) : list Z :=
  map (fun i =>
         let x := (i mod 5)%nat in
         let row := (5 * (i / 5))%nat in
         Z.lxor (lane B i)
           (Z.land (Z.lxor (lane B ((x + 1) mod 5 + row)) mask64)
                   (lane B ((x + 2) mod 5 + row))))
      (seq 0 25).

Definition iota (rc : Z) (A : list Z) : list Z :=
  match A with
  | [] => []
  | a :: A' => Z.lxor a rc :: A'
  end.

Definition round (A : list Z) (rc : Z) : list Z :=
  iota rc (chi (rho_pi (theta A))).

Definition keccak_f (A : list Z) : list Z := fold_left round RC A.

(** A little-endian 64-bit lane from 8 bytes. *)
Definition lane_of_bytes (bs : list byte) : Z :=
  fold_right (fun b acc => Z_of_byte b + 256 * acc) 0 bs.

Definition bytes_of_lane (v : Z) : list byte :=
  map (fun k => byte_of_Z (Z.shiftr v (8 * Z.of_nat k))) (seq 0 8).

Definition rate : nat := 136.

Definition pad (data : list byte) : list byte :=
  let q := (rate - length data mod rate)%nat in
  match q with
  | 1%nat => data ++ [x81]
  | _ => data ++ [x01] ++ repeat x00 (q - 2) ++ [x80]
  end.

Definition xor_block (A : list Z) (block : list byte) : list Z :=
  map (fun i =>
         if (i <? 17)%nat
         then Z.lxor (lane A i) (lane_of_bytes (firstn 8 (skipn (8 * i) block)))
         else lane A i)
      (seq 0 25).

Fixpoint absorb (blocks : nat) (A : list Z) (p : list byte) : list Z :=
  match blocks with
  | O => A
  | S blocks' =>
      absorb blocks' (keccak_f (xor_block A (firstn rate p))) (skipn rate p)
  end.

Definition Sum256 (data : list byte) : list byte :=
  let p := pad data in
  let A := absorb (length p / rate) (repeat 0 25) p in
  concat (map bytes_of_lane (firstn 4 A)).

End Keccak.

(** ** secp256k1, the instance of [KoblitzCurve] the package links against

    Affine chord-and-tangent arithmetic over the field of [fieldOrder]
    elements; the point at infinity is [(0, 0)], as the Go library
    returns it. *)

Module S256.

Definition Gx : Z :=
  0x79BE667EF9DCBBAC55A06295CE870B07029BFCDB2DCE28D959F2815B16F81798.
Definition Gy : Z :=
  0x483ADA7726A3C4655DA4FBFC0E1108A8FD17B448A68554199C47D08FFB10D4B8.

Definition inv (a : Z) : Z :=
  match ModInverse a fieldOrder with
  | Some z => z
  | None => 0
  end.

Definition is_infinity (x y : Z) : bool := (x =? 0) && (y =? 0).

Definition Add (x1 y1 x2 y2 : Z) : Z * Z :=
  if is_infinity x1 y1 then (x2, y2)
  else if is_infinity x2 y2 then (x1, y1)
  else if (x1 =? x2) && ((y1 + y2) mod fieldOrder =? 0) then (0, 0)
  else
    let l :=
      if x1 =? x2
      then (3 * x1 * x1 * inv (2 * y1)) mod fieldOrder
      else ((y2 - y1) * inv (x2 - x1)) mod fieldOrder in
    let x3 := (l * l - x1 - x2) mod fieldOrder in
    (x3, (l * (x1 - x3) - y1) mod fieldOrder).

Fixpoint mul_pos (k : positive) (x y : Z) : Z * Z :=
  match k with
  | xH => (x, y)
  | xO k' => let '(a, b) := mul_pos k' x y in Add a b a b
  | xI k' =>
      let '(a, b) := mul_pos k' x y in
      let '(c, d) := Add a b a b in
      Add c d x y
  end.

Definition ScalarMult (x y : Z) (k : list byte) : Z * Z :=
  match SetBytes k mod generatorOrder with
  | Zpos q => mul_pos q x y
  | _ => (0, 0)
  end.

Definition ScalarBaseMult (k : list byte) : Z * Z := ScalarMult Gx Gy k.

Definition curve : KoblitzCurve :=
  Build_KoblitzCurve Gx Gy ScalarBaseMult ScalarMult Add.

End S256.

(** ** The group of the curve seen through discrete logarithms

    The points of secp256k1 form a cyclic group of prime order
    [generatorOrder]. This instance names each point by its logarithm
    to the base [G], kept in the first coordinate; it satisfies the
    group laws below by arithmetic modulo [generatorOrder]. *)

Module Dlog.

Definition Add (x1 y1 x2 y2 : Z) : Z * Z := ((x1 + x2) mod generatorOrder, 0).

Definition ScalarMult (x y : Z) (k : list byte) : Z * Z :=
  ((x * SetBytes k) mod generatorOrder, 0).

Definition ScalarBaseMult (k : list byte) : Z * Z := ScalarMult 1 0 k.

Definition curve : KoblitzCurve :=
  Build_KoblitzCurve 1 0 ScalarBaseMult ScalarMult Add.

End Dlog.

(** The laws of a cyclic group of order [generatorOrder] generated by
    the base point, in terms of the curve interface. *)
Record GroupLaws (s : KoblitzCurve) : Prop := {
  base_mult : forall k, ScalarBaseMult s k = ScalarMult s (Gx s) (Gy s) k;
  mult_mult : forall a b, 0 <= a -> 0 <= b ->
    ScalarMult s (fst (ScalarBaseMult s (Bytes a)))
                 (snd (ScalarBaseMult s (Bytes a))) (Bytes b)
    = ScalarBaseMult s (Bytes (a * b));
  add_mult : forall a b, 0 <= a -> 0 <= b ->
    Add s (fst (ScalarBaseMult s (Bytes a))) (snd (ScalarBaseMult s (Bytes a)))
          (fst (ScalarBaseMult s (Bytes b))) (snd (ScalarBaseMult s (Bytes b)))
    = ScalarBaseMult s (Bytes (a + b));
  base_order : forall a b, 0 <= a -> 0 <= b ->
    (ScalarBaseMult s (Bytes a) = ScalarBaseMult s (Bytes b)
     <-> a mod generatorOrder = b mod generatorOrder)
}.

(** ** Behaviour the design document describes *)

(** Modelled from the spec: [evaluate(poly, i)], absent from the
    package in this form. Horner's method from the highest-degree
    coefficient down, reducing modulo the group order after each step. *)
Definition evaluate (coeff : list Z) (i : Z) : Z :=
  fold_right (fun ck acc => (acc * i + ck) mod generatorOrder) 0 coeff.

(** [coeff[0] + coeff[1] * i + ... ] over the integers. *)
Fixpoint poly_value (coeff : list Z) (i : Z) : Z :=
  match coeff with
  | [] => 0
  | ck :: coeff' => ck + i * poly_value coeff' i
  end.

Definition sum_coeff (coeff : list Z) : Z := fold_right Z.add 0 coeff.

Section Verification.

Variable s : KoblitzCurve.
Variable Sum256 : list byte -> list byte.

Definition point_eqb (P Q : Point) : bool :=
  (Point.x P =? Point.x Q) && (Point.y P =? Point.y Q).

(** A Scalar times a point; Scalars are integers modulo the group order. *)
Definition smul (k : Z) (P : Point) : Point :=
  let '(x, y) :=
    ScalarMult s (Point.x P) (Point.y P) (Bytes (k mod generatorOrder)) in
  Point.mk x y.

Definition padd (P Q : Point) : Point :=
  let '(x, y) := Add s (Point.x P) (Point.y P) (Point.x Q) (Point.y Q) in
  Point.mk x y.

(** The 32-byte big-endian encoding of a coordinate. *)
Definition encode32 (z : Z) : list byte :=
  repeat x00 (32 - length (Bytes z)) ++ Bytes z.

(** Modelled from the spec: the three checks of [Verification(proof, Y)],
    which the package does not implement. *)
Definition checkG (pf : DLEQProof) : bool :=
  point_eqb (padd (smul (DLEQProof.r pf) (G s))
                  (smul (DLEQProof.c pf) (DLEQProof.xG pf)))
            (DLEQProof.vG pf).

Definition checkH (pf : DLEQProof) (Y : Point) : bool :=
  point_eqb (padd (smul (DLEQProof.r pf) Y)
                  (smul (DLEQProof.c pf) (DLEQProof.xH pf)))
            (DLEQProof.vH pf).

Definition checkC (pf : DLEQProof) : bool :=
  let enc P := encode32 (Point.x P) ++ encode32 (Point.y P) in
  let c' :=
    SetBytes (Sum256 (enc (DLEQProof.xG pf) ++ enc (DLEQProof.xH pf) ++
                      enc (DLEQProof.vG pf) ++ enc (DLEQProof.vH pf)))
    mod generatorOrder in
  c' =? DLEQProof.c pf.

Definition Verify (pf : DLEQProof) (Y : Point) : bool :=
  checkG pf && checkH pf Y && checkC pf.

End Verification.

(** ** Notions used to state the properties *)

Definition on_curve (pt : Point) : Prop :=
  (Point.y pt ^ 2) mod fieldOrder = (Point.x pt ^ 3 + 7) mod fieldOrder.

(** The Keccak-256 digest of the empty string, as an integer. *)
Definition empty_digest : Z :=
  0xc5d2460186f7233c927e7db2dcc703c0e500b653ca82273b7bfad8045d85a470.

Definition empty_point : Point :=
  Point.mk 0xc5d2460186f7233c927e7db2dcc703c0e500b653ca82273b7bfad8045d85a471
           0x06945a29a7911378312b726cf7ee9107e1f9adc5fb6611d56613d47319beb19f.

Definition pt_of (p : Z * Z) : Point := Point.mk (fst p) (snd p).
(** The values [createDlEQProof] computes, written out. *)
Section ProofValues.

Variable s : KoblitzCurve.
Variable Sum256 : list byte -> list byte.
Variable reader : nat -> Z.
Variables (secret : Z) (nodePubKey : Point) (k : nat).

Definition proof_xG : Point := pt_of (ScalarBaseMult s (Bytes secret)).
Definition proof_xH : Point :=
  pt_of (ScalarMult s (Point.x nodePubKey) (Point.y nodePubKey) (Bytes secret)).
Definition proof_v : Z := reader k mod fieldOrder.
Definition proof_vG : Point := pt_of (ScalarBaseMult s (Bytes proof_v)).
Definition proof_vH : Point :=
  pt_of (ScalarMult s (Point.x nodePubKey) (Point.y nodePubKey) (Bytes proof_v)).
Definition proof_c : Z :=
  SetBytes (Keccak256 Sum256
              [challengeBytes [proof_xG; proof_xH; proof_vG; proof_vH]]).
Definition proof_r : Z := proof_v - (proof_c * secret) mod fieldOrder.

End ProofValues.

(** What the loop of [polyEval] adds up: the coefficients past the first
    meet the exponents [e], [2e], [4e], ... of the index. *)
Fixpoint squared_terms (l : list Z) (x e : Z) : Z :=
  match l with
  | [] => 0
  | ck :: l' => ck * x ^ e + squared_terms l' x (2 * e)
  end.

(** The integer a little-endian digit string denotes. *)
Definition le_value (r : list byte) : Z :=
  fold_right (fun b acc => acc * 256 + Z_of_byte b) 0 r.

(** A big-endian byte string without a leading zero byte: the strings
    [Bytes] produces. *)
Definition canonical (l : list byte) : Prop :=
  match l with
  | [] => True
  | b :: _ => b <> x00
  end.

Local Open Scope string_scope.

(** ** Node configuration (package [dkgnode]) *)

Module Config.

Record t : Type := mk {
  HttpServerPort : string;
  MainServerAddress : string;
  EthConnection : string;
  EthPrivateKey : string;
  BftURI : string;
  ABCIServer : string;
  TMP2PListenAddress : string;
  P2PListenAddress : string;
  NodeListAddress : string;
  NumberOfNodes : Z;
  Threshold : Z;
  NumMalNodes : Z;
  KeysPerEpoch : Z;
  KeyBufferTriggerPercentage : Z;
  BasePath : string;
  InitEpoch : Z;
  ShouldRegister : bool;
  CPUProfileToFile : string;
  IsDebug : bool;
  ProvidedIPAddress : string;
  Endpoint : string;
  LogLevel : string;
  ServeUsingTLS : bool;
  UseAutoCert : bool;
  AutoCertCacheDir : string;
  PublicURL : string;
  ServerCert : string;
  ServerKey : string;
  GoogleClientID : string
}.

(** Assignments to single fields. *)
Definition set_ShouldRegister (v : bool) (c : t) : t :=
  let '(mk
         a0 a1 a2 a3 a4 a5 a6 a7 a8 a9 a10 a11 a12 a13 a14 a15 _ a17 a18 a19
         a20 a21 a22 a23 a24 a25 a26 a27 a28) := c in
  mk
    a0 a1 a2 a3 a4 a5 a6 a7 a8 a9 a10 a11 a12 a13 a14 a15 v a17 a18 a19 a20
    a21 a22 a23 a24 a25 a26 a27 a28.

Definition set_IsDebug (v : bool) (c : t) : t :=
  let '(mk
         a0 a1 a2 a3 a4 a5 a6 a7 a8 a9 a10 a11 a12 a13 a14 a15 a16 a17 _ a19
         a20 a21 a22 a23 a24 a25 a26 a27 a28) := c in
  mk
    a0 a1 a2 a3 a4 a5 a6 a7 a8 a9 a10 a11 a12 a13 a14 a15 a16 a17 v a19 a20
    a21 a22 a23 a24 a25 a26 a27 a28.

Definition set_EthPrivateKey (v : string) (c : t) : t :=
  let '(mk
         a0 a1 a2 _ a4 a5 a6 a7 a8 a9 a10 a11 a12 a13 a14 a15 a16 a17 a18 a19
         a20 a21 a22 a23 a24 a25 a26 a27 a28) := c in
  mk
    a0 a1 a2 v a4 a5 a6 a7 a8 a9 a10 a11 a12 a13 a14 a15 a16 a17 a18 a19 a20
    a21 a22 a23 a24 a25 a26 a27 a28.

Definition set_ProvidedIPAddress (v : string) (c : t) : t :=
  let '(mk
         a0 a1 a2 a3 a4 a5 a6 a7 a8 a9 a10 a11 a12 a13 a14 a15 a16 a17 a18 _
         a20 a21 a22 a23 a24 a25 a26 a27 a28) := c in
  mk
    a0 a1 a2 a3 a4 a5 a6 a7 a8 a9 a10 a11 a12 a13 a14 a15 a16 a17 a18 v a20
    a21 a22 a23 a24 a25 a26 a27 a28.

Definition set_CPUProfileToFile (v : string) (c : t) : t :=
  let '(mk
         a0 a1 a2 a3 a4 a5 a6 a7 a8 a9 a10 a11 a12 a13 a14 a15 a16 _ a18 a19
         a20 a21 a22 a23 a24 a25 a26 a27 a28) := c in
  mk
    a0 a1 a2 a3 a4 a5 a6 a7 a8 a9 a10 a11 a12 a13 a14 a15 a16 v a18 a19 a20
    a21 a22 a23 a24 a25 a26 a27 a28.

Definition set_EthConnection (v : string) (c : t) : t :=
  let '(mk
         a0 a1 _ a3 a4 a5 a6 a7 a8 a9 a10 a11 a12 a13 a14 a15 a16 a17 a18 a19
         a20 a21 a22 a23 a24 a25 a26 a27 a28) := c in
  mk
    a0 a1 v a3 a4 a5 a6 a7 a8 a9 a10 a11 a12 a13 a14 a15 a16 a17 a18 a19 a20
    a21 a22 a23 a24 a25 a26 a27 a28.

Definition set_NodeListAddress (v : string) (c : t) : t :=
  let '(mk
         a0 a1 a2 a3 a4 a5 a6 a7 _ a9 a10 a11 a12 a13 a14 a15 a16 a17 a18 a19
         a20 a21 a22 a23 a24 a25 a26 a27 a28) := c in
  mk
    a0 a1 a2 a3 a4 a5 a6 a7 v a9 a10 a11 a12 a13 a14 a15 a16 a17 a18 a19 a20
    a21 a22 a23 a24 a25 a26 a27 a28.

Definition set_BasePath (v : string) (c : t) : t :=
  let '(mk
         a0 a1 a2 a3 a4 a5 a6 a7 a8 a9 a10 a11 a12 a13 _ a15 a16 a17 a18 a19
         a20 a21 a22 a23 a24 a25 a26 a27 a28) := c in
  mk
    a0 a1 a2 a3 a4 a5 a6 a7 a8 a9 a10 a11 a12 a13 v a15 a16 a17 a18 a19 a20
    a21 a22 a23 a24 a25 a26 a27 a28.

Definition set_MainServerAddress (v : string) (c : t) : t :=
  let '(mk
         a0 _ a2 a3 a4 a5 a6 a7 a8 a9 a10 a11 a12 a13 a14 a15 a16 a17 a18 a19
         a20 a21 a22 a23 a24 a25 a26 a27 a28) := c in
  mk
    a0 v a2 a3 a4 a5 a6 a7 a8 a9 a10 a11 a12 a13 a14 a15 a16 a17 a18 a19 a20
    a21 a22 a23 a24 a25 a26 a27 a28.

Definition set_P2PListenAddress (v : string) (c : t) : t :=
  let '(mk
         a0 a1 a2 a3 a4 a5 a6 _ a8 a9 a10 a11 a12 a13 a14 a15 a16 a17 a18 a19
         a20 a21 a22 a23 a24 a25 a26 a27 a28) := c in
  mk
    a0 a1 a2 a3 a4 a5 a6 v a8 a9 a10 a11 a12 a13 a14 a15 a16 a17 a18 a19 a20
    a21 a22 a23 a24 a25 a26 a27 a28.

End Config.
Abbreviation Config := Config.t.

(** Fields the Go literal leaves out hold their zero values. *)
Definition defaultConfigSettings : Config :=
  {|
    Config.HttpServerPort := "443"%string;
    Config.MainServerAddress := "127.0.0.1:443"%string;
    Config.EthConnection := "http://178.128.178.162:14103"%string;
    Config.EthPrivateKey := "29909a750dc6abc3e3c83de9c6da9d6faf9fde4eebb61fa21221415557de5a0b"%string;
    Config.BftURI := "tcp://0.0.0.0:26657"%string;
    Config.ABCIServer := "tcp://0.0.0.0:8010"%string;
    Config.TMP2PListenAddress := "tcp://0.0.0.0:26656"%string;
    Config.P2PListenAddress := "/ip4/0.0.0.0/tcp/1080"%string;
    Config.NodeListAddress := "0x4e8fce1336c534e0452410c2cb8cd628949dcc85"%string;
    Config.NumberOfNodes := 5;
    Config.Threshold := 3;
    Config.NumMalNodes := 1;
    Config.KeysPerEpoch := 100;
    Config.KeyBufferTriggerPercentage := 80;
    Config.BasePath := "/.torus"%string;
    Config.InitEpoch := 0;
    Config.ShouldRegister := false;
    Config.CPUProfileToFile := ""%string;
    Config.IsDebug := false;
    Config.ProvidedIPAddress := ""%string;
    Config.Endpoint := ""%string;
    Config.LogLevel := "debug"%string;
    Config.ServeUsingTLS := false;
    Config.UseAutoCert := false;
    Config.AutoCertCacheDir := ""%string;
    Config.PublicURL := ""%string;
    Config.ServerCert := "/.torus/openssl/server.crt"%string;
    Config.ServerKey := "/.torus/openssl/server.key"%string;
    Config.GoogleClientID := ""%string
  |}.

(** The command line after [flag.Parse]: the names of the flags that
    were set (what [flag.Visit] walks through) and the values behind the
    nine flag pointers. *)
Record Flags : Type := {
  visited : list string;
  register : bool;
  debug : bool;
  ethPrivateKey : string;
  ipAddress : string;
  cpuProfile : string;
  ethConnection : string;
  nodeListAddress : string;
  basePath : string;
  configPath : string
}.

Definition isFlagPassed (visited : list string) (name : string) : bool :=
  let found := false in
  fold_left (fun found f => if String.eqb f name then true else found)
            visited found.

Definition mergeWithFlags (visited : list string) (c flagConfig : Config)
  : Config :=
  let c := if isFlagPassed visited "register"
           then Config.set_ShouldRegister (Config.ShouldRegister flagConfig) c
           else c in
  let c := if isFlagPassed visited "debug"
           then Config.set_IsDebug (Config.IsDebug flagConfig) c
           else c in
  let c := if isFlagPassed visited "ethprivateKey"
           then Config.set_EthPrivateKey (Config.EthPrivateKey flagConfig) c
           else c in
  let c := if isFlagPassed visited "ipAddress"
           then Config.set_ProvidedIPAddress
                  (Config.ProvidedIPAddress flagConfig) c
           else c in
  let c := if isFlagPassed visited "cpuProfile"
           then Config.set_CPUProfileToFile
                  (Config.CPUProfileToFile flagConfig) c
           else c in
  let c := if isFlagPassed visited "ethConnection"
           then Config.set_EthConnection (Config.EthConnection flagConfig) c
           else c in
  let c := if isFlagPassed visited "nodeListAddress"
           then Config.set_NodeListAddress (Config.NodeListAddress flagConfig) c
           else c in
  let c := if isFlagPassed visited "basePath"
           then Config.set_BasePath (Config.BasePath flagConfig) c
           else c in
  c.

(** Returns the edited config and the value of the [configPath] flag. *)
Definition createConfigWithFlags (fl : Flags) (c : Config) : Config * string :=
  let c := if isFlagPassed (visited fl) "register"
           then Config.set_ShouldRegister (register fl) c else c in
  let c := if isFlagPassed (visited fl) "debug"
           then Config.set_IsDebug (debug fl) c else c in
  let c := if isFlagPassed (visited fl) "ethprivateKey"
           then Config.set_EthPrivateKey (ethPrivateKey fl) c else c in
  let c := if isFlagPassed (visited fl) "ipAddress"
           then Config.set_ProvidedIPAddress (ipAddress fl) c else c in
  let c := if isFlagPassed (visited fl) "cpuProfile"
           then Config.set_CPUProfileToFile (cpuProfile fl) c else c in
  let c := if isFlagPassed (visited fl) "ethConnection"
           then Config.set_EthConnection (ethConnection fl) c else c in
  let c := if isFlagPassed (visited fl) "nodeListAddress"
           then Config.set_NodeListAddress (nodeListAddress fl) c else c in
  let c := if isFlagPassed (visited fl) "basePath"
           then Config.set_BasePath (basePath fl) c else c in
  (c, configPath fl).

Section LoadConfig.

(** [readAndMarshallJSONConfig]: the config after the JSON file at a
    path was unmarshalled over it (unchanged when the file cannot be
    read). *)
Variable readAndMarshallJSONConfig : string -> Config -> Config.

(** [env.Parse]: the config after the environment was read over it. *)
Variable envParse : Config -> Config.

(** [fmt.Sprintf] of a format string without arguments. *)
Variable Sprintf : string -> string.

Definition loadConfig (fl : Flags) (configPath : string) : Config :=
  let conf := defaultConfigSettings in
  let flagConf := defaultConfigSettings in
  let '(flagConf, providedCF) := createConfigWithFlags fl flagConf in
  let configPath :=
    if negb (String.eqb providedCF "") then providedCF else configPath in
  let conf := readAndMarshallJSONConfig configPath conf in
  let conf := envParse conf in
  let conf := mergeWithFlags (visited fl) conf flagConf in
  if negb (String.eqb (Config.ProvidedIPAddress conf) "")
  then
    let conf :=
      Config.set_MainServerAddress
        (Config.ProvidedIPAddress conf ++ ":" ++ Config.HttpServerPort conf)
        conf in
    Config.set_P2PListenAddress (Sprintf (Config.P2PListenAddress conf)) conf
  else conf.

(** The path read and the config before the flags are merged in. *)
Definition chosen_path (fl : Flags) (configPath0 : string) : string :=
  if negb (String.eqb (configPath fl) "") then configPath fl else configPath0.

Definition file_and_env (fl : Flags) (configPath0 : string) : Config :=
  envParse (readAndMarshallJSONConfig (chosen_path fl configPath0)
              defaultConfigSettings).

Definition merged (fl : Flags) (configPath0 : string) : Config :=
  mergeWithFlags (visited fl) (file_and_env fl configPath0)
    (fst (createConfigWithFlags fl defaultConfigSettings)).

End LoadConfig.

(** The flags [mergeWithFlags] and [createConfigWithFlags] look for. *)
Definition mergeFlagNames : list string :=
  ["register"; "debug"; "ethprivateKey"; "ipAddress"; "cpuProfile";
   "ethConnection"; "nodeListAddress"; "basePath"].

(** Two command lines that set the same flags, give the flags they set
    the same values, and hold the same [configPath] value. *)
Definition same_set_flags (fl fl' : Flags) : Prop :=
  visited fl = visited fl' /\
  configPath fl = configPath fl' /\
  (In "register" (visited fl) -> register fl = register fl') /\
  (In "debug" (visited fl) -> debug fl = debug fl') /\
  (In "ethprivateKey" (visited fl) -> ethPrivateKey fl = ethPrivateKey fl') /\
  (In "ipAddress" (visited fl) -> ipAddress fl = ipAddress fl') /\
  (In "cpuProfile" (visited fl) -> cpuProfile fl = cpuProfile fl') /\
  (In "ethConnection" (visited fl) -> ethConnection fl = ethConnection fl') /\
  (In "nodeListAddress" (visited fl) ->
   nodeListAddress fl = nodeListAddress fl') /\
  (In "basePath" (visited fl) -> basePath fl = basePath fl').

(** A command line that sets only [-ipAddress 10.0.0.1], with the flag
    defaults behind the other pointers, and one that differs from it in
    the value behind the unset [basePath] flag. *)
Definition ip_flags : Flags :=
  {| visited := ["ipAddress"];
     register := true; debug := false; ethPrivateKey := "";
     ipAddress := "10.0.0.1"; cpuProfile := ""; ethConnection := "";
     nodeListAddress := ""; basePath := "/.torus"; configPath := "" |}.

Definition ip_flags' : Flags :=
  {| visited := ["ipAddress"];
     register := false; debug := true; ethPrivateKey := "";
     ipAddress := "10.0.0.1"; cpuProfile := ""; ethConnection := "";
     nodeListAddress := ""; basePath := "/tmp"; configPath := "" |}.

(** A command line that sets no flag. *)
Definition no_flags : Flags :=
  {| visited := [];
     register := true; debug := false; ethPrivateKey := "";
     ipAddress := ""; cpuProfile := ""; ethConnection := "";
     nodeListAddress := ""; basePath := "/.torus"; configPath := "" |}.

Local Close Scope string_scope.

(** * Properties *)

(** ** Byte strings and integers *)

Lemma Z_of_byte_range (b : byte) : 0 <= Z_of_byte b < 256.
Proof.
  unfold Z_of_byte. pose proof (Byte.to_N_bounded b). lia.
Qed.

Lemma Z_of_byte_of_Z (z : Z) : Z_of_byte (byte_of_Z z) = z mod 256.
Proof.
  unfold Z_of_byte, byte_of_Z.
  assert (Hr : 0 <= z mod 256 < 256) by (apply Z.mod_pos_bound; lia).
  destruct (Byte.of_N (Z.to_N (z mod 256))) as [b|] eqn:E.
  - apply Byte.to_of_N in E. rewrite E. lia.
  - apply Byte.of_N_None_iff in E. lia.
Qed.

Lemma SetBytes_acc (buf : list byte) (acc : Z) :
  0 <= acc -> 0 <= fold_left (fun a b => a * 256 + Z_of_byte b) buf acc.
Proof.
  revert acc. induction buf as [|b buf IH]; intros acc Hacc; simpl.
  - exact Hacc.
  - apply IH. pose proof (Z_of_byte_range b). lia.
Qed.

Lemma SetBytes_nonneg (buf : list byte) : 0 <= SetBytes buf.
Proof. apply SetBytes_acc. lia. Qed.

Lemma SetBytes_rev (l : list byte) :
  SetBytes (rev l) = fold_right (fun b acc => acc * 256 + Z_of_byte b) 0 l.
Proof.
  unfold SetBytes. rewrite <- (rev_involutive l) at 2.
  rewrite fold_left_rev_right. reflexivity.
Qed.

Lemma digits_value (fuel : nat) : forall z,
  0 <= z < 2 ^ Z.of_nat fuel ->
  fold_right (fun b acc => acc * 256 + Z_of_byte b) 0 (digits fuel z) = z.
Proof.
  induction fuel as [|fuel IH]; intros z Hz.
  - simpl in *. lia.
  - cbn [digits]. destruct (Z.leb_spec z 0) as [Hle|Hgt].
    + simpl. lia.
    + cbn [fold_right]. rewrite Z_of_byte_of_Z, IH.
      * pose proof (Z.div_mod z 256). lia.
      * rewrite Nat2Z.inj_succ, Z.pow_succ_r in Hz by lia.
        split; [apply Z.div_pos; lia|].
        apply Z.div_lt_upper_bound; lia.
Qed.

Lemma SetBytes_Bytes (z : Z) : 0 <= z -> SetBytes (Bytes z) = z.
Proof.
  intros Hz. unfold Bytes. rewrite SetBytes_rev, Z.abs_eq by lia.
  apply digits_value. split; [lia|].
  destruct (Z.eq_dec z 0) as [->|Hnz].
  - simpl. lia.
  - rewrite Nat2Z.inj_add, Z2Nat.id by apply Z.log2_nonneg.
    change (Z.of_nat 1) with 1.
    pose proof (Z.log2_spec z). rewrite <- Z.add_1_r in *. lia.
Qed.

Lemma Bytes_abs (z : Z) : Bytes (Z.abs z) = Bytes z.
Proof. unfold Bytes. rewrite Z.abs_idemp. reflexivity. Qed.

(** ** Facts about the constants *)

Lemma fieldOrder_pos : 0 < fieldOrder.
Proof. reflexivity. Qed.

Lemma generatorOrder_pos : 0 < generatorOrder.
Proof. reflexivity. Qed.

Lemma generatorOrder_lt_fieldOrder : generatorOrder < fieldOrder.
Proof. reflexivity. Qed.

Lemma Exp_spec (x y m : Z) : m <> 0 -> Exp x y m = x ^ y mod m.
Proof. intros Hm. unfold Exp. apply Zpow_mod_correct. exact Hm. Qed.

(** ** The hash-to-point search *)

Lemma hashToPoint_try_spec (x y : Z) :
  hashToPoint_try x = Some y ->
  (y ^ 2) mod fieldOrder = (x ^ 3 + 7) mod fieldOrder /\ 0 <= y < fieldOrder.
Proof.
  unfold hashToPoint_try.
  set (beta := (Exp x 3 fieldOrder + 7) mod fieldOrder).
  assert (Hbeta : beta = (x ^ 3 + 7) mod fieldOrder).
  { unfold beta. rewrite Exp_spec by discriminate. apply Zplus_mod_idemp_l. }
  assert (Hy : 0 <= Exp beta sqRoot fieldOrder < fieldOrder).
  { rewrite Exp_spec by discriminate. apply Z.mod_pos_bound. reflexivity. }
  clearbody beta. revert Hy.
  generalize (Exp beta sqRoot fieldOrder) as y0. intros y0 Hy.
  destruct (Z.eqb_spec (Exp y0 2 fieldOrder) beta) as [E|E]; [|discriminate].
  intros H0. assert (y0 = y) by congruence. subst y0.
  rewrite Exp_spec in E by discriminate. split; [congruence|exact Hy].
Qed.

(** Acceptance of a candidate only depends on its residue modulo the
    field prime. *)
Lemma hashToPoint_try_mod (x : Z) :
  hashToPoint_try (x mod fieldOrder) = hashToPoint_try x.
Proof.
  unfold hashToPoint_try. rewrite !Exp_spec by discriminate.
  rewrite <- (Zpower_mod x 3 fieldOrder) by reflexivity. reflexivity.
Qed.

Lemma hashToPoint_try_congr (x x' : Z) :
  x mod fieldOrder = x' mod fieldOrder ->
  hashToPoint_try x = hashToPoint_try x'.
Proof.
  intros E. rewrite <- (hashToPoint_try_mod x), E. apply hashToPoint_try_mod.
Qed.

Lemma Sum256_empty : SetBytes (Keccak256 Keccak.Sum256 [[]]) = empty_digest.
Proof. vm_compute. reflexivity. Qed.

Lemma hashToPoint_try_empty_digest : hashToPoint_try empty_digest = None.
Proof. vm_compute. reflexivity. Qed.

Lemma hashToPoint_try_empty_next :
  hashToPoint_try (empty_digest + 1) = Some (Point.y empty_point).
Proof. vm_compute. reflexivity. Qed.

(** Every run of [fieldOrder] consecutive candidates holds an accepted one. *)
Lemma hashToPoint_try_reachable (x : Z) :
  exists k : nat,
    (k < Z.to_nat fieldOrder)%nat /\ hashToPoint_try (x + Z.of_nat k) <> None.
Proof.
  set (d := (empty_digest + 1 - x) mod fieldOrder).
  assert (Hd : 0 <= d < fieldOrder) by (apply Z.mod_pos_bound; reflexivity).
  exists (Z.to_nat d). split.
  - apply Z2Nat.inj_lt; lia.
  - rewrite Z2Nat.id by lia.
    rewrite (hashToPoint_try_congr (x + d) (empty_digest + 1)).
    + rewrite hashToPoint_try_empty_next. discriminate.
    + unfold d. rewrite Zplus_mod_idemp_r. f_equal. lia.
Qed.

Lemma hashToPoint_loop_S (fuel : nat) (x : Z) :
  hashToPoint_loop (S fuel) x =
  match hashToPoint_try x with
  | Some y => Some (Point.mk x y)
  | None => hashToPoint_loop fuel (x + 1)
  end.
Proof. reflexivity. Qed.

Lemma hashToPoint_loop_finds (k : nat) : forall x,
  hashToPoint_try (x + Z.of_nat k) <> None ->
  exists j pt, (j <= k)%nat /\ hashToPoint_loop (S j) x = Some pt.
Proof.
  induction k as [|k IH]; intros x Hx.
  - exists 0%nat. rewrite hashToPoint_loop_S.
    replace (x + Z.of_nat 0) with x in Hx by (simpl; lia).
    destruct (hashToPoint_try x) as [y|]; [|congruence].
    exists (Point.mk x y). split; [lia|reflexivity].
  - destruct (hashToPoint_try x) as [y|] eqn:E.
    + exists 0%nat, (Point.mk x y). split; [lia|].
      rewrite hashToPoint_loop_S, E. reflexivity.
    + destruct (IH (x + 1)) as (j & pt & Hj & Hrun).
      * replace (x + 1 + Z.of_nat k) with (x + Z.of_nat (S k)) by lia. exact Hx.
      * exists (S j), pt. split; [lia|].
        rewrite hashToPoint_loop_S, E. exact Hrun.
Qed.

(** More fuel never changes a result. *)
Lemma hashToPoint_loop_mono (fuel : nat) : forall x pt fuel',
  hashToPoint_loop fuel x = Some pt -> (fuel <= fuel')%nat ->
  hashToPoint_loop fuel' x = Some pt.
Proof.
  induction fuel as [|fuel IH]; intros x pt fuel' Hrun Hle.
  - discriminate.
  - destruct fuel' as [|fuel']; [lia|].
    rewrite hashToPoint_loop_S in *.
    destruct (hashToPoint_try x) as [y|]; [exact Hrun|].
    apply IH; [exact Hrun|lia].
Qed.

Lemma hashToPoint_loop_deterministic (f1 f2 : nat) (x : Z) (p1 p2 : Point) :
  hashToPoint_loop f1 x = Some p1 -> hashToPoint_loop f2 x = Some p2 -> p1 = p2.
Proof.
  intros H1 H2.
  apply (hashToPoint_loop_mono f1 x p1 (Nat.max f1 f2)) in H1; [|lia].
  apply (hashToPoint_loop_mono f2 x p2 (Nat.max f1 f2)) in H2; [|lia].
  congruence.
Qed.

Lemma hashToPoint_loop_sound (fuel : nat) : forall x pt,
  hashToPoint_loop fuel x = Some pt ->
  on_curve pt /\ 0 <= Point.y pt < fieldOrder /\ x <= Point.x pt.
Proof.
  induction fuel as [|fuel IH]; intros x pt Hrun.
  - discriminate.
  - rewrite hashToPoint_loop_S in Hrun.
    destruct (hashToPoint_try x) as [y|] eqn:E.
    + injection Hrun as <-. apply hashToPoint_try_spec in E.
      unfold on_curve. cbn [Point.x Point.y]. intuition lia.
    + apply IH in Hrun. intuition lia.
Qed.

Lemma hashToPoint_loop_total (x : Z) :
  exists pt, hashToPoint_loop (Z.to_nat fieldOrder) x = Some pt.
Proof.
  destruct (hashToPoint_try_reachable x) as (k & Hk & Hgood).
  destruct (hashToPoint_loop_finds k x Hgood) as (j & pt & Hj & Hrun).
  exists pt. apply (hashToPoint_loop_mono (S j)); [exact Hrun|lia].
Qed.

Lemma hashToPoint_loop_x_bound (fuel : nat) : forall x pt,
  hashToPoint_loop fuel x = Some pt -> Point.x pt < x + Z.of_nat fuel.
Proof.
  induction fuel as [|fuel IH]; intros x pt Hrun.
  - discriminate.
  - rewrite hashToPoint_loop_S in Hrun.
    destruct (hashToPoint_try x) as [y|].
    + injection Hrun as <-. cbn [Point.x]. lia.
    + apply IH in Hrun. lia.
Qed.

(** The empty input: the digest itself is rejected, its successor is
    accepted. *)
Lemma hashToPoint_empty (fuel : nat) :
  hashToPoint Keccak.Sum256 (S (S fuel)) [] = Some empty_point.
Proof.
  unfold hashToPoint. rewrite Sum256_empty.
  rewrite hashToPoint_loop_S, hashToPoint_try_empty_digest.
  rewrite hashToPoint_loop_S, hashToPoint_try_empty_next.
  reflexivity.
Qed.

(** From any starting candidate the loop returns within [fieldOrder]
    iterations. *)
Lemma hashToPoint_loop_within_cap (x : Z) :
  exists (n : nat) (pt : Point),
    (n <= Z.to_nat fieldOrder)%nat /\
    hashToPoint_loop n x = Some pt /\
    hashToPoint_loop (Z.to_nat fieldOrder) x = Some pt.
Proof.
  destruct (hashToPoint_try_reachable x) as (k & Hk & Hgood).
  destruct (hashToPoint_loop_finds k _ Hgood) as (j & pt & Hj & Hrun).
  exists (S j), pt. split; [lia|]. split; [exact Hrun|].
  apply (hashToPoint_loop_mono (S j)); [exact Hrun|lia].
Qed.

(** The search loop of [hashToPoint], which has no counter of its own,
    returns a point on every byte input after at most [fieldOrder]
    iterations. *)
Theorem hashToPoint_terminates (Sum256 : list byte -> list byte)
    (data : list byte) :
  exists (n : nat) (pt : Point),
    (n <= Z.to_nat fieldOrder)%nat /\
    hashToPoint Sum256 n data = Some pt /\
    hashToPoint Sum256 (Z.to_nat fieldOrder) data = Some pt.
Proof. unfold hashToPoint. apply hashToPoint_loop_within_cap. Qed.

(** X21: for every byte input, the empty one included, [hashToPoint]
    returns a point [(x, y)] with [y^2 = x^3 + 7] modulo [fieldOrder] and
    [0 <= y < fieldOrder]; [x] is the digest plus the number of rejected
    candidates, at least the digest and less than the digest plus
    [fieldOrder]. The code does not reduce [x] modulo [fieldOrder]. *)
Theorem hashToPoint_on_curve (Sum256 : list byte -> list byte)
    (data : list byte) :
  exists pt,
    hashToPoint Sum256 (Z.to_nat fieldOrder) data = Some pt /\
    on_curve pt /\
    0 <= Point.y pt < fieldOrder /\
    SetBytes (Keccak256 Sum256 [data]) <= Point.x pt
      < SetBytes (Keccak256 Sum256 [data]) + fieldOrder.
Proof.
  unfold hashToPoint.
  destruct (hashToPoint_loop_within_cap (SetBytes (Keccak256 Sum256 [data])))
    as (n & pt & Hn & Hrun & Hcap).
  exists pt. split; [exact Hcap|].
  pose proof (hashToPoint_loop_sound _ _ _ Hrun) as (Hc & Hy & Hx).
  pose proof (hashToPoint_loop_x_bound _ _ _ Hrun) as Hb.
  assert (Z.of_nat n <= fieldOrder).
  { rewrite <- (Z2Nat.id fieldOrder) by discriminate. apply Nat2Z.inj_le. exact Hn. }
  repeat split; try tauto; lia.
Qed.

(** C9: [hashToPoint] is deterministic: two runs on the same input that
    both return yield the same point, whatever fuel each was given. *)
Theorem hashToPoint_deterministic (Sum256 : list byte -> list byte)
    (data : list byte) (fuel1 fuel2 : nat) (p1 p2 : Point) :
  hashToPoint Sum256 fuel1 data = Some p1 ->
  hashToPoint Sum256 fuel2 data = Some p2 ->
  p1 = p2.
Proof.
  unfold hashToPoint. apply hashToPoint_loop_deterministic.
Qed.

Lemma hashToPoint_deterministic_witness :
  hashToPoint Keccak.Sum256 2 [] = Some empty_point /\
  hashToPoint Keccak.Sum256 3 [] = Some empty_point /\
  empty_point = empty_point.
Proof.
  split; [apply (hashToPoint_empty 0)|].
  split; [apply (hashToPoint_empty 1)|].
  apply (hashToPoint_deterministic Keccak.Sum256 [] 2 3);
    [apply (hashToPoint_empty 0)|apply (hashToPoint_empty 1)].
Defined.

(** ** Share polynomial evaluation *)

Lemma skipn_nth_error {A : Type} (l : list A) : forall i a,
  nth_error l i = Some a -> skipn i l = a :: skipn (S i) l.
Proof.
  induction l as [|b l IH]; intros [|i] a Hn; try discriminate.
  - injection Hn as ->. reflexivity.
  - cbn [nth_error] in Hn. apply IH in Hn. exact Hn.
Qed.

Lemma nth_error_in_range {A : Type} (l : list A) (i : nat) :
  (i < length l)%nat -> exists a, nth_error l i = Some a.
Proof.
  intros Hi. destruct (nth_error l i) as [a|] eqn:E; [eauto|].
  apply nth_error_None in E. lia.
Qed.

Lemma polyEval_loop_S (coeff : list Z) (n i : nat) (xi sum : Z) :
  polyEval_loop coeff (S n) i xi sum =
  match nth_error coeff i with
  | None => None
  | Some ci =>
      polyEval_loop coeff n (S i) ((xi * xi) mod fieldOrder)
        ((sum + xi * ci) mod fieldOrder)
  end.
Proof. reflexivity. Qed.

(** At the evaluation point 1 the running power stays 1. *)
Lemma polyEval_loop_at_one (coeff : list Z) (n : nat) : forall i sum,
  (i + n <= length coeff)%nat ->
  polyEval_loop coeff n i 1 sum =
  Some (match n with
        | O => sum
        | S _ => (sum + sum_coeff (firstn n (skipn i coeff))) mod fieldOrder
        end).
Proof.
  induction n as [|n IH]; intros i sum Hlen.
  - reflexivity.
  - rewrite polyEval_loop_S.
    destruct (nth_error_in_range coeff i) as [ci Hci]; [lia|].
    rewrite Hci, (skipn_nth_error _ _ _ Hci).
    change (1 * 1 mod fieldOrder) with 1.
    rewrite IH by lia. f_equal.
    cbn [firstn sum_coeff fold_right]. fold (sum_coeff (firstn n (skipn (S i) coeff))).
    destruct n as [|n].
    + cbn [firstn sum_coeff fold_right]. f_equal. lia.
    + rewrite Zplus_mod_idemp_l. f_equal. lia.
Qed.

(** Horner's scheme computes the polynomial value modulo the group order. *)
Lemma evaluate_poly_value (coeff : list Z) (i : Z) :
  evaluate coeff i = poly_value coeff i mod generatorOrder.
Proof.
  induction coeff as [|ck coeff IH].
  - reflexivity.
  - cbn [evaluate fold_right poly_value]. fold (evaluate coeff i).
    rewrite IH.
    rewrite <- (Zplus_mod_idemp_l (poly_value coeff i mod generatorOrder * i)).
    rewrite Zmult_mod_idemp_l, Zplus_mod_idemp_l.
    f_equal. lia.
Qed.

(** C1: [polyEval] does not compute the polynomial value by Horner's
    method. For the coefficients [0, 0, 0, 1] (the polynomial [x^3]) and
    index 2 it returns 16, where [p(2) = 8]: the running power is squared
    at each step, so the coefficient of degree 3 is multiplied by [2^4]. *)
Theorem polyEval_not_horner :
  polyEval (PrimaryPolynomial.mk [0; 0; 0; 1] 4) 2 = Some 16 /\
  evaluate [0; 0; 0; 1] 2 = 8 /\
  poly_value [0; 0; 0; 1] 2 mod generatorOrder = 8.
Proof. repeat split; vm_compute; reflexivity. Qed.

(** C10, as stated, fails for a one-coefficient polynomial whose
    coefficient is not already reduced: the loop body, the only place
    that reduces, never runs. *)
Lemma polyEval_at_one_unreduced :
  polyEval (PrimaryPolynomial.mk [fieldOrder] 1) 1 = Some fieldOrder /\
  sum_coeff [fieldOrder] mod fieldOrder = 0.
Proof. split; vm_compute; reflexivity. Qed.

(** C10, amended: for a polynomial with [threshold] coefficients,
    [polyEval] at index 1 returns the sum of the coefficients reduced
    modulo the field prime when [threshold >= 2], or when
    [threshold = 1] and [coeff[0]] already lies in [0, fieldOrder). *)
Theorem polyEval_at_one (coeff : list Z) (threshold : Z) :
  1 <= threshold <= Z.of_nat (length coeff) ->
  2 <= threshold \/ 0 <= nth 0 coeff 0 < fieldOrder ->
  polyEval (PrimaryPolynomial.mk coeff threshold) 1 =
  Some (sum_coeff (firstn (Z.to_nat threshold) coeff) mod fieldOrder).
Proof.
  intros Ht Hc. unfold polyEval. cbn [PrimaryPolynomial.coeff PrimaryPolynomial.threshold].
  destruct coeff as [|c0 coeff]; [cbn [length] in Ht; lia|].
  cbn [nth_error nth] in *.
  rewrite polyEval_loop_at_one by (cbn [length] in *; lia).
  replace (Z.to_nat threshold) with (S (Z.to_nat (threshold - 1))) by lia.
  cbn [skipn firstn sum_coeff fold_right].
  fold (sum_coeff (firstn (Z.to_nat (threshold - 1)) coeff)).
  f_equal.
  destruct (Z.to_nat (threshold - 1)) as [|m] eqn:Em.
  - cbn [firstn sum_coeff fold_right].
    destruct Hc as [Hc|Hc]; [lia|].
    rewrite Z.add_0_l, Z.add_0_r. symmetry. apply Z.mod_small. exact Hc.
  - reflexivity.
Qed.

Lemma polyEval_at_one_witness :
  1 <= 3 <= Z.of_nat (length [10; 1; 2]) /\
  (2 <= 3 \/ 0 <= nth 0 [10; 1; 2] 0 < fieldOrder) /\
  polyEval (PrimaryPolynomial.mk [10; 1; 2] 3) 1 =
  Some (sum_coeff (firstn (Z.to_nat 3) [10; 1; 2]) mod fieldOrder).
Proof.
  assert (H1 : 1 <= 3 <= Z.of_nat (length [10; 1; 2])) by (simpl; lia).
  assert (H2 : 2 <= 3 \/ 0 <= nth 0 [10; 1; 2] 0 < fieldOrder) by (left; lia).
  split; [exact H1|]. split; [exact H2|].
  apply (polyEval_at_one [10; 1; 2] 3 H1 H2).
Defined.

(** ** DLEQ proof generation *)

Lemma createDlEQProof_eq (s : KoblitzCurve) (Sum256 : list byte -> list byte)
    (reader : nat -> Z) (secret : Z) (nodePubKey : Point) (k : nat) :
  createDlEQProof s Sum256 reader secret nodePubKey k =
  (DLEQProof.mk (proof_c s Sum256 reader secret nodePubKey k)
                (proof_r s Sum256 reader secret nodePubKey k)
                (proof_vG s reader k)
                (proof_vH s reader nodePubKey k)
                (proof_xG s secret)
                (proof_xH s secret nodePubKey), S k).
Proof.
  unfold createDlEQProof, proof_r, proof_c, proof_vG, proof_vH, proof_xG,
    proof_xH, proof_v, bind, randomBigInt, ret, pt_of.
  destruct (ScalarBaseMult s (Bytes secret)) as [x y].
  destruct (ScalarMult s (Point.x nodePubKey) (Point.y nodePubKey)
              (Bytes secret)) as [x2 y2].
  destruct (ScalarBaseMult s (Bytes (reader k mod fieldOrder))) as [x3 y3].
  destruct (ScalarMult s (Point.x nodePubKey) (Point.y nodePubKey)
              (Bytes (reader k mod fieldOrder))) as [x4 y4].
  reflexivity.
Qed.

(** C6: the response of [createDlEQProof] is not reduced modulo the
    group order. For the secret 0 and the nonce draw [generatorOrder]
    (a legal draw below [fieldOrder]) the response is [generatorOrder]
    itself, outside [0, generatorOrder), where [v - c * x] modulo the
    group order is 0. *)
Theorem createDlEQProof_response_not_reduced (s : KoblitzCurve)
    (Sum256 : list byte -> list byte) (nodePubKey : Point) (k : nat) :
  let pf := fst (createDlEQProof s Sum256 (fun _ => generatorOrder) 0
                   nodePubKey k) in
  DLEQProof.r pf = generatorOrder /\
  (generatorOrder - DLEQProof.c pf * 0) mod generatorOrder = 0.
Proof.
  rewrite createDlEQProof_eq. cbn [fst DLEQProof.r DLEQProof.c].
  unfold proof_r, proof_v. rewrite !Z.mul_0_r.
  split.
  - change (0 mod fieldOrder) with 0. rewrite Z.sub_0_r.
    apply Z.mod_small. split; [discriminate|reflexivity].
  - rewrite Z.sub_0_r. apply Z_mod_same_full.
Qed.

(** The run on the real curve and the real sponge for the secret 3, the
    public key [G] and the nonce draw 1: the challenge, the response, and
    the integer by which [r + c * x] misses [v]. *)
Lemma createDlEQProof_at_3 :
  let pf := fst (createDlEQProof S256.curve Keccak.Sum256 (fun _ => 1) 3
                   (G S256.curve) 0%nat) in
  DLEQProof.c pf =
    0x8431d22c7a96495b442b92570f51f0e4697fe16367f9445bab52a25ee006bbd0 /\
  DLEQProof.r pf =
    -63587877017820926639270281889743656089080028749249661055307832647397275875136 /\
  DLEQProof.r pf + DLEQProof.c pf * 3 - 1 = fieldOrder /\
  (fieldOrder * (DLEQProof.c pf * 3 / fieldOrder)) mod generatorOrder =
    432420386565659656852420866390673177326.
Proof. vm_compute. repeat split; reflexivity. Qed.

(** ** The group laws in the discrete-logarithm instance *)

Lemma Dlog_laws : GroupLaws Dlog.curve.
Proof.
  split; cbn [ScalarBaseMult ScalarMult Add Gx Gy Dlog.curve];
    unfold Dlog.ScalarBaseMult, Dlog.ScalarMult, Dlog.Add; cbn [fst snd].
  - reflexivity.
  - intros a b Ha Hb. rewrite !SetBytes_Bytes by lia.
    rewrite !Z.mul_1_l, Zmult_mod_idemp_l. reflexivity.
  - intros a b Ha Hb. rewrite !SetBytes_Bytes by lia.
    rewrite !Z.mul_1_l, <- Zplus_mod. reflexivity.
  - intros a b Ha Hb. rewrite !SetBytes_Bytes by lia.
    rewrite !Z.mul_1_l. split; [congruence|intros ->; reflexivity].
Qed.

Lemma mod_eq_iff (a b n : Z) :
  0 < n -> (a mod n = b mod n <-> (a - b) mod n = 0).
Proof.
  intros Hn. split; intros E.
  - rewrite Zminus_mod, E, Z.sub_diag. apply Z.mod_0_l. lia.
  - apply Z.mod_divide in E; [|lia]. destruct E as [q Hq].
    replace a with (b + q * n) by lia. apply Z_mod_plus_full.
Qed.

Lemma point_eqb_pt_of (p q : Z * Z) :
  point_eqb (pt_of p) (pt_of q) = true <-> p = q.
Proof.
  destruct p as [a b], q as [c d]. unfold point_eqb, pt_of.
  cbn [fst snd Point.x Point.y].
  rewrite andb_true_iff, !Z.eqb_eq. split; [intros [-> ->]|intros [= -> ->]]; auto.
Qed.

Section Completeness.

Variable s : KoblitzCurve.
Hypothesis laws : GroupLaws s.
Variable Sum256 : list byte -> list byte.
Variable reader : nat -> Z.

Lemma smul_G (a : Z) :
  smul s a (G s) = pt_of (ScalarBaseMult s (Bytes (a mod generatorOrder))).
Proof.
  unfold smul, G. cbn [Point.x Point.y].
  rewrite <- (base_mult s laws).
  destruct (ScalarBaseMult s (Bytes (a mod generatorOrder))). reflexivity.
Qed.

Lemma smul_base (a b : Z) :
  0 <= b ->
  smul s a (pt_of (ScalarBaseMult s (Bytes b))) =
  pt_of (ScalarBaseMult s (Bytes (b * (a mod generatorOrder)))).
Proof.
  intros Hb. unfold smul, pt_of at 1. cbn [Point.x Point.y].
  rewrite (mult_mult s laws) by
    (try lia; apply Z.mod_pos_bound; reflexivity).
  destruct (ScalarBaseMult s (Bytes (b * (a mod generatorOrder)))). reflexivity.
Qed.

Lemma padd_base (a b : Z) :
  0 <= a -> 0 <= b ->
  padd s (pt_of (ScalarBaseMult s (Bytes a))) (pt_of (ScalarBaseMult s (Bytes b)))
  = pt_of (ScalarBaseMult s (Bytes (a + b))).
Proof.
  intros Ha Hb. unfold padd, pt_of at 1 2 3 4. cbn [Point.x Point.y].
  rewrite (add_mult s laws) by lia.
  destruct (ScalarBaseMult s (Bytes (a + b))). reflexivity.
Qed.

(** The first verification check holds exactly when the multiple of
    [fieldOrder] dropped by the reduction of [c * x] vanishes modulo the
    group order. *)
Lemma checkG_createDlEQProof (secret : Z) (nodePubKey : Point) (k : nat) :
  0 <= secret ->
  let pf := fst (createDlEQProof s Sum256 reader secret nodePubKey k) in
  checkG s pf = true <->
  (fieldOrder * (DLEQProof.c pf * secret / fieldOrder)) mod generatorOrder = 0.
Proof.
  intros Hs. rewrite createDlEQProof_eq. cbn [fst]. unfold checkG.
  cbn [DLEQProof.r DLEQProof.c DLEQProof.xG DLEQProof.vG].
  set (c := proof_c s Sum256 reader secret nodePubKey k).
  set (r := proof_r s Sum256 reader secret nodePubKey k).
  assert (Hn : 0 < generatorOrder) by reflexivity.
  assert (Hv : 0 <= proof_v reader k)
    by (apply Z.mod_pos_bound; reflexivity).
  assert (Hrm : 0 <= r mod generatorOrder) by (apply Z.mod_pos_bound; exact Hn).
  assert (Hcm : 0 <= c mod generatorOrder) by (apply Z.mod_pos_bound; exact Hn).
  unfold proof_xG, proof_vG.
  rewrite smul_G, smul_base by exact Hs.
  rewrite padd_base by nia.
  rewrite point_eqb_pt_of, (base_order s laws) by nia.
  rewrite mod_eq_iff by exact Hn.
  assert (E : (r mod generatorOrder + secret * (c mod generatorOrder)
               - proof_v reader k) mod generatorOrder
              = (fieldOrder * (c * secret / fieldOrder)) mod generatorOrder).
  { rewrite <- Zminus_mod_idemp_l, <- Zplus_mod_idemp_r.
    rewrite Zmult_mod_idemp_r, Zplus_mod_idemp_r, Zplus_mod_idemp_l.
    rewrite Zminus_mod_idemp_l. f_equal.
    unfold r, proof_r. fold c.
    pose proof (Z.div_mod (c * secret) fieldOrder ltac:(discriminate)) as Hd.
    revert Hd. generalize (c * secret / fieldOrder) as q.
    generalize ((c * secret) mod fieldOrder) as m. intros m q Hd. lia. }
  rewrite E. reflexivity.
Qed.

End Completeness.

(** C2: a proof produced by [createDlEQProof] does not always verify.
    Over a curve obeying the group laws, whenever the multiple of
    [fieldOrder] dropped in reducing [c * secret] is not a multiple of
    the group order, the check [r * G + c * xG = vG] fails and the proof
    is rejected. *)
Theorem createDlEQProof_fails_verification (s : KoblitzCurve)
    (laws : GroupLaws s) (Sum256 : list byte -> list byte)
    (reader : nat -> Z) (secret : Z) (nodePubKey : Point) (k : nat) :
  0 <= secret ->
  let pf := fst (createDlEQProof s Sum256 reader secret nodePubKey k) in
  (fieldOrder * (DLEQProof.c pf * secret / fieldOrder)) mod generatorOrder <> 0 ->
  Verify s Sum256 pf nodePubKey = false.
Proof.
  intros Hs pf Hgap. unfold Verify.
  destruct (checkG s pf) eqn:E; [|reflexivity].
  apply (checkG_createDlEQProof s laws Sum256 reader secret nodePubKey k Hs) in E.
  contradiction.
Qed.

Lemma createDlEQProof_fails_verification_witness :
  0 <= 3 /\
  (fieldOrder *
   (DLEQProof.c (fst (createDlEQProof Dlog.curve Keccak.Sum256 (fun _ => 1) 3
                        (G Dlog.curve) 0%nat)) * 3 / fieldOrder))
    mod generatorOrder <> 0 /\
  Verify Dlog.curve Keccak.Sum256
    (fst (createDlEQProof Dlog.curve Keccak.Sum256 (fun _ => 1) 3
            (G Dlog.curve) 0%nat)) (G Dlog.curve) = false.
Proof.
  assert (H1 : 0 <= 3) by lia.
  assert (H2 : (fieldOrder *
     (DLEQProof.c (fst (createDlEQProof Dlog.curve Keccak.Sum256 (fun _ => 1) 3
                          (G Dlog.curve) 0%nat)) * 3 / fieldOrder))
      mod generatorOrder <> 0) by (vm_compute; discriminate).
  split; [exact H1|]. split; [exact H2|].
  exact (createDlEQProof_fails_verification Dlog.curve Dlog_laws Keccak.Sum256
           (fun _ => 1) 3 (G Dlog.curve) 0%nat H1 H2).
Defined.

(** ** Batch proof generation *)

Lemma batchCreateDLEQProof_loop_cons (s : KoblitzCurve)
    (Sum256 : list byte -> list byte) (reader : nat -> Z)
    (node : Point) (nodes : list Point)
    (share : PrimaryShares) (shares : list PrimaryShares) (k : nat) :
  batchCreateDLEQProof_loop s Sum256 reader (node :: nodes) (share :: shares) k
  = (fst (createDlEQProof s Sum256 reader (PrimaryShares.Value share) node k)
       :: fst (batchCreateDLEQProof_loop s Sum256 reader nodes shares (S k)),
     snd (batchCreateDLEQProof_loop s Sum256 reader nodes shares (S k))).
Proof.
  cbn [batchCreateDLEQProof_loop]. unfold bind.
  rewrite createDlEQProof_eq.
  destruct (batchCreateDLEQProof_loop s Sum256 reader nodes shares (S k)).
  reflexivity.
Qed.

Lemma batchCreateDLEQProof_loop_spec (s : KoblitzCurve)
    (Sum256 : list byte -> list byte) (reader : nat -> Z)
    (nodes : list Point) : forall (shares : list PrimaryShares) (k : nat),
  length nodes = length shares ->
  snd (batchCreateDLEQProof_loop s Sum256 reader nodes shares k)
    = (k + length nodes)%nat /\
  length (fst (batchCreateDLEQProof_loop s Sum256 reader nodes shares k))
    = length nodes /\
  forall i node share,
    nth_error nodes i = Some node ->
    nth_error shares i = Some share ->
    nth_error (fst (batchCreateDLEQProof_loop s Sum256 reader nodes shares k)) i
    = Some (fst (createDlEQProof s Sum256 reader (PrimaryShares.Value share)
                   node (k + i)%nat)).
Proof.
  induction nodes as [|node0 nodes IH]; intros shares k Hlen.
  - destruct shares; [|discriminate]. cbn.
    split; [lia|]. split; [reflexivity|].
    intros [|i] node share Hn; discriminate.
  - destruct shares as [|share0 shares]; [discriminate|].
    cbn [length] in Hlen. apply Nat.succ_inj in Hlen.
    rewrite batchCreateDLEQProof_loop_cons.
    destruct (IH shares (S k) Hlen) as (Hk & Hl & Hnth).
    cbn [fst snd length].
    split; [lia|]. split; [lia|].
    intros [|i] node share Hn Hsh; cbn [nth_error] in *.
    + injection Hn as <-. injection Hsh as <-.
      rewrite Nat.add_0_r. reflexivity.
    + rewrite (Hnth i node share Hn Hsh). do 3 f_equal. lia.
Qed.

(** C7: [batchCreateDLEQProof] returns nil, its failure result, when
    the node list and the share list differ in length; otherwise it
    returns one proof per (node, share) pair, the i-th being the proof
    [createDlEQProof] makes from [shares[i].Value] and [nodes[i]] with
    the i-th nonce draw. *)
Theorem batchCreateDLEQProof_spec (s : KoblitzCurve)
    (Sum256 : list byte -> list byte) (reader : nat -> Z)
    (nodes : list Point) (shares : list PrimaryShares) (k : nat) :
  (length nodes <> length shares ->
   fst (batchCreateDLEQProof s Sum256 reader nodes shares k) = None) /\
  (length nodes = length shares ->
   exists proofs,
     fst (batchCreateDLEQProof s Sum256 reader nodes shares k) = Some proofs /\
     length proofs = length nodes /\
     forall i node share,
       nth_error nodes i = Some node ->
       nth_error shares i = Some share ->
       nth_error proofs i
       = Some (fst (createDlEQProof s Sum256 reader
                      (PrimaryShares.Value share) node (k + i)%nat))).
Proof.
  unfold batchCreateDLEQProof. split; intros Hlen.
  - apply Nat.eqb_neq in Hlen. rewrite Hlen. reflexivity.
  - pose proof (batchCreateDLEQProof_loop_spec s Sum256 reader nodes shares k Hlen)
      as (_ & Hl & Hnth).
    apply Nat.eqb_eq in Hlen. rewrite Hlen. cbn [negb]. unfold bind, ret.
    destruct (batchCreateDLEQProof_loop s Sum256 reader nodes shares k)
      as [ps k'].
    exists ps. cbn [fst] in *. auto.
Qed.

(** ** Share encryption and decryption entry points *)

Lemma replicateM_randomBigInt_S (reader : nat -> Z) (n k : nat) :
  replicateM (S n) (randomBigInt reader) k =
  (reader k mod fieldOrder :: fst (replicateM n (randomBigInt reader) (S k)),
   snd (replicateM n (randomBigInt reader) (S k))).
Proof.
  cbn [replicateM]. unfold bind. unfold randomBigInt at 1. cbv beta iota.
  destruct (replicateM n (randomBigInt reader) (S k)). reflexivity.
Qed.

Lemma replicateM_randomBigInt (reader : nat -> Z) (n : nat) : forall k,
  snd (replicateM n (randomBigInt reader) k) = (k + n)%nat /\
  length (fst (replicateM n (randomBigInt reader) k)) = n.
Proof.
  induction n as [|n IH]; intros k.
  - cbn. lia.
  - rewrite replicateM_randomBigInt_S. destruct (IH (S k)) as [Hk Hl].
    cbn [fst snd length]. lia.
Qed.

Lemma sequence_all_some {A B : Type} (f : A -> option B) (l : list A) :
  (forall a, In a l -> f a <> None) ->
  exists r, sequence (map f l) = Some r /\ length r = length l.
Proof.
  induction l as [|a l IH]; intros Hall.
  - exists []. split; reflexivity.
  - cbn [map sequence].
    destruct (f a) as [b|] eqn:E; [|exfalso; apply (Hall a); [left; reflexivity|exact E]].
    destruct IH as (r & Hr & Hl); [intros a' Ha'; apply Hall; right; exact Ha'|].
    rewrite Hr. exists (b :: r). split; [reflexivity|cbn [length]; lia].
Qed.

Lemma polyEval_loop_in_range (coeff : list Z) (n : nat) : forall i xi sum,
  (i + n <= length coeff)%nat -> polyEval_loop coeff n i xi sum <> None.
Proof.
  induction n as [|n IH]; intros i xi sum Hlen.
  - discriminate.
  - rewrite polyEval_loop_S.
    destruct (nth_error_in_range coeff i) as [ci Hci]; [lia|].
    rewrite Hci. apply IH. lia.
Qed.

Lemma polyEval_in_range (coeff : list Z) (threshold x : Z) :
  1 <= threshold <= Z.of_nat (length coeff) ->
  polyEval (PrimaryPolynomial.mk coeff threshold) x <> None.
Proof.
  intros Ht. unfold polyEval.
  cbn [PrimaryPolynomial.coeff PrimaryPolynomial.threshold].
  destruct coeff as [|c0 coeff]; [cbn [length] in Ht; lia|].
  cbn [nth_error]. apply polyEval_loop_in_range. cbn [length] in *. lia.
Qed.

(** C4: [encShares] encrypts nothing and proves nothing. For every node
    list, secret and threshold of at least 1 it ends with
    [encryptedShares] holding one zero per node, having made only the
    [threshold - 1] coefficient draws and no nonce draw; it has no result
    to return a bundle in. *)
Theorem encShares_encrypts_nothing (s : KoblitzCurve) (reader : nat -> Z)
    (nodes : list Point) (secret threshold : Z) (k : nat) :
  1 <= threshold ->
  exists shares commits,
    encShares s reader nodes secret threshold k =
    (Some (Build_encSharesLocals (repeat 0 (length nodes)) shares commits),
     (k + Z.to_nat (threshold - 1))%nat) /\
    length shares = length nodes /\
    length commits = Z.to_nat threshold.
Proof.
  intros Ht. unfold encShares.
  destruct (Z.leb_spec threshold 0) as [Hle|_]; [lia|].
  unfold bind.
  destruct (replicateM_randomBigInt reader (Z.to_nat (threshold - 1)) k)
    as [Hk Hl].
  destruct (replicateM (Z.to_nat (threshold - 1)) (randomBigInt reader) k)
    as [rest k'].
  cbn [fst snd] in Hk, Hl. subst k'.
  rewrite Nat2Z.id.
  assert (Hlen : 1 <= threshold <= Z.of_nat (length (secret :: rest)))
    by (cbn [length]; lia).
  unfold getShares.
  destruct (Z.ltb_spec (Z.of_nat (length nodes)) 0) as [Hneg|_]; [lia|].
  destruct (sequence_all_some
              (fun i => polyEval (PrimaryPolynomial.mk (secret :: rest) threshold)
                          (Z.of_nat i + 1))
              (seq 0 (Z.to_nat (Z.of_nat (length nodes)))))
    as (shares & Hshares & Hsl).
  { intros i _. apply polyEval_in_range. exact Hlen. }
  rewrite Hshares.
  unfold getCommit.
  destruct (Z.ltb_spec threshold 0) as [Hneg|_]; [lia|].
  cbn [PrimaryPolynomial.coeff].
  destruct (sequence_all_some
              (fun i =>
                 match nth_error (secret :: rest) i with
                 | None => None
                 | Some ci =>
                     let '(x, y) := ScalarBaseMult s (Bytes ci) in
                     Some (Point.mk x y)
                 end)
              (seq 0 (Z.to_nat threshold)))
    as (commits & Hcommits & Hcl).
  { intros i Hi. apply in_seq in Hi.
    destruct (nth_error_in_range (secret :: rest) i) as [ci Hci];
      [cbn [length]; lia|].
    rewrite Hci. destruct (ScalarBaseMult s (Bytes ci)). discriminate. }
  rewrite Hcommits.
  exists shares, commits. unfold ret.
  rewrite length_seq in Hsl, Hcl. rewrite Nat2Z.id in Hsl.
  repeat split; assumption.
Qed.

Lemma encShares_encrypts_nothing_witness :
  1 <= 1 /\
  exists shares commits,
    encShares S256.curve (fun _ => 1) [G S256.curve] 1 1 0%nat =
    (Some (Build_encSharesLocals (repeat 0 (length [G S256.curve]))
             shares commits),
     (0 + Z.to_nat (1 - 1))%nat) /\
    length shares = length [G S256.curve] /\
    length commits = Z.to_nat 1.
Proof.
  assert (H1 : 1 <= 1) by lia.
  split; [exact H1|].
  exact (encShares_encrypts_nothing S256.curve (fun _ => 1)
           [G S256.curve] 1 1 0%nat H1).
Defined.

(** C3: [DecShare] does not decrypt. Whatever the encrypted share and
    the key, it returns the integer 0, not the point [d^-1 * S]. *)
Theorem DecShare_returns_zero (encShareX encShareY consistencyProof : Z)
    (key : PrivateKey) :
  DecShare encShareX encShareY consistencyProof key = 0.
Proof. reflexivity. Qed.

(** ** More on the share polynomial *)

Lemma mod_congr_term (p s a b ck t : Z) :
  0 < p -> a mod p = b mod p ->
  ((s + a * ck) mod p + t) mod p = (s + (ck * b + t)) mod p.
Proof.
  intros Hp E. rewrite Zplus_mod_idemp_l.
  apply mod_eq_iff; [exact Hp|].
  apply (mod_eq_iff a b p Hp) in E.
  apply Z.mod_divide in E; [|lia]. destruct E as [q Hq].
  replace (s + a * ck + t - (s + (ck * b + t))) with (ck * q * p) by nia.
  apply Z_mod_mult.
Qed.

Lemma polyEval_loop_squares (coeff : list Z) (x : Z) (n : nat) :
  forall i xi sum e,
  0 < e -> xi mod fieldOrder = x ^ e mod fieldOrder ->
  (i + S n <= length coeff)%nat ->
  polyEval_loop coeff (S n) i xi sum =
  Some ((sum + squared_terms (firstn (S n) (skipn i coeff)) x e) mod fieldOrder).
Proof.
  induction n as [|n IH]; intros i xi sum e He Hxi Hlen;
    rewrite polyEval_loop_S;
    destruct (nth_error_in_range coeff i) as [ci Hci]; try lia;
    rewrite Hci, (skipn_nth_error _ _ _ Hci).
  - cbn [polyEval_loop firstn squared_terms]. f_equal.
    transitivity (((sum + xi * ci) mod fieldOrder + 0) mod fieldOrder).
    + rewrite Z.add_0_r, Z.mod_mod by discriminate. reflexivity.
    + apply mod_congr_term; [reflexivity|exact Hxi].
  - rewrite (IH (S i) _ _ (2 * e)); try lia.
    + f_equal. cbn [firstn squared_terms].
      apply mod_congr_term; [reflexivity|exact Hxi].
    + rewrite Z.mod_mod by discriminate.
      rewrite Zmult_mod, Hxi, <- Zmult_mod.
      replace (2 * e) with (e + e) by lia.
      rewrite Z.pow_add_r by lia. reflexivity.
Qed.

Lemma polyEval_squared_terms (coeff : list Z) (threshold x : Z) :
  2 <= threshold <= Z.of_nat (length coeff) ->
  polyEval (PrimaryPolynomial.mk coeff threshold) x =
  Some ((nth 0 coeff 0
         + squared_terms (firstn (Z.to_nat (threshold - 1)) (tl coeff)) x 1)
        mod fieldOrder).
Proof.
  intros Ht. unfold polyEval.
  cbn [PrimaryPolynomial.coeff PrimaryPolynomial.threshold].
  destruct coeff as [|c0 coeff]; [cbn [length] in Ht; lia|].
  cbn [nth_error nth tl length] in *.
  destruct (Z.to_nat (threshold - 1)) as [|n] eqn:En; [lia|].
  rewrite (polyEval_loop_squares (c0 :: coeff) x n 1%nat x (0 + c0) 1);
    [reflexivity|lia|rewrite Z.pow_1_r; reflexivity|cbn [length]; lia].
Qed.

(** X1: what [polyEval] computes for a threshold of 2 or more: the
    first coefficient plus the later ones times the index raised to
    1, 2, 4, 8, ..., reduced modulo [fieldOrder]. *)
Theorem polyEval_closed_form (coeff : list Z) (threshold x : Z) :
  2 <= threshold <= Z.of_nat (length coeff) ->
  polyEval (PrimaryPolynomial.mk coeff threshold) x =
  Some ((nth 0 coeff 0
         + squared_terms (firstn (Z.to_nat (threshold - 1)) (tl coeff)) x 1)
        mod fieldOrder).
Proof. apply polyEval_squared_terms. Qed.

Lemma polyEval_closed_form_witness :
  (2 <= 4 <= Z.of_nat (length [7; 0; 0; 1])) /\
  polyEval (PrimaryPolynomial.mk [7; 0; 0; 1] 4) 2 =
  Some ((nth 0 [7; 0; 0; 1] 0
         + squared_terms (firstn (Z.to_nat (4 - 1)) (tl [7; 0; 0; 1])) 2 1)
        mod fieldOrder).
Proof.
  assert (H1 : 2 <= 4 <= Z.of_nat (length [7; 0; 0; 1])) by (simpl; lia).
  split; [exact H1|].
  exact (polyEval_closed_form [7; 0; 0; 1] 4 2 H1).
Defined.

(** X2: for a threshold of 2 or 3 the squared power is still the right
    power, and [polyEval] is the polynomial value modulo [fieldOrder]. *)
Theorem polyEval_small_threshold (coeff : list Z) (threshold x : Z) :
  threshold = 2 \/ threshold = 3 ->
  threshold <= Z.of_nat (length coeff) ->
  polyEval (PrimaryPolynomial.mk coeff threshold) x =
  Some (poly_value (firstn (Z.to_nat threshold) coeff) x mod fieldOrder).
Proof.
  intros Ht Hlen. rewrite polyEval_squared_terms by lia. f_equal. f_equal.
  destruct coeff as [|c0 [|c1 coeff]]; try (cbn [length] in Hlen; lia).
  destruct Ht as [-> | ->].
  - change (Z.to_nat (2 - 1)) with 1%nat. change (Z.to_nat 2) with 2%nat.
    cbn [nth tl firstn squared_terms poly_value].
    rewrite Z.pow_1_r. ring.
  - destruct coeff as [|c2 coeff]; [cbn [length] in Hlen; lia|].
    change (Z.to_nat (3 - 1)) with 2%nat. change (Z.to_nat 3) with 3%nat.
    cbn [nth tl firstn squared_terms poly_value]. change (2 * 1) with 2.
    rewrite Z.pow_1_r, Z.pow_2_r. ring.
Qed.

Lemma polyEval_small_threshold_witness :
  (3 = 2 \/ 3 = 3) /\
  (3 <= Z.of_nat (length [5; 6; 7])) /\
  polyEval (PrimaryPolynomial.mk [5; 6; 7] 3) 10 =
  Some (poly_value (firstn (Z.to_nat 3) [5; 6; 7]) 10 mod fieldOrder).
Proof.
  assert (H1 : 3 = 2 \/ 3 = 3) by (right; reflexivity).
  assert (H2 : 3 <= Z.of_nat (length [5; 6; 7])) by (simpl; lia).
  split; [exact H1|]. split; [exact H2|].
  exact (polyEval_small_threshold [5; 6; 7] 3 10 H1 H2).
Defined.

Lemma polyEval_loop_out_of_range (coeff : list Z) (n : nat) :
  forall i xi sum,
  (i <= length coeff)%nat -> (length coeff < i + n)%nat ->
  polyEval_loop coeff n i xi sum = None.
Proof.
  induction n as [|n IH]; intros i xi sum Hi Hn.
  - lia.
  - rewrite polyEval_loop_S.
    destruct (nth_error coeff i) as [ci|] eqn:E; [|reflexivity].
    assert (i < length coeff)%nat by (apply nth_error_Some; congruence).
    apply IH; lia.
Qed.

(** X3: [polyEval] panics exactly when the coefficient slice is empty or
    shorter than the threshold; the index plays no part. *)
Theorem polyEval_panics_iff (coeff : list Z) (threshold x : Z) :
  polyEval (PrimaryPolynomial.mk coeff threshold) x = None <->
  coeff = [] \/ Z.of_nat (length coeff) < threshold.
Proof.
  unfold polyEval.
  cbn [PrimaryPolynomial.coeff PrimaryPolynomial.threshold].
  destruct coeff as [|c0 coeff].
  - cbn [nth_error]. split; [left; reflexivity|reflexivity].
  - cbn [nth_error]. split.
    + intros Hnone. right.
      destruct (Z.lt_ge_cases (Z.of_nat (length (c0 :: coeff))) threshold)
        as [Hlt|Hge]; [exact Hlt|].
      exfalso. revert Hnone. apply polyEval_loop_in_range.
      cbn [length] in *. lia.
    + intros [Habs|Hlt]; [discriminate|].
      apply polyEval_loop_out_of_range; cbn [length] in *; lia.
Qed.

(** X4: with a threshold of 2 or more the share is a canonical residue
    modulo [fieldOrder] (which is not the group order). *)
Theorem polyEval_range (coeff : list Z) (threshold x : Z) :
  2 <= threshold <= Z.of_nat (length coeff) ->
  exists v, polyEval (PrimaryPolynomial.mk coeff threshold) x = Some v /\
            0 <= v < fieldOrder.
Proof.
  intros Ht. rewrite polyEval_squared_terms by exact Ht.
  eexists. split; [reflexivity|]. apply Z.mod_pos_bound. reflexivity.
Qed.

Lemma polyEval_range_witness :
  (2 <= 2 <= Z.of_nat (length [1; 1])) /\
  exists v, polyEval (PrimaryPolynomial.mk [1; 1] 2) (-5) = Some v /\
            0 <= v < fieldOrder.
Proof.
  assert (H1 : 2 <= 2 <= Z.of_nat (length [1; 1])) by (simpl; lia).
  split; [exact H1|].
  exact (polyEval_range [1; 1] 2 (-5) H1).
Defined.

(** With a threshold of 1 or less the first coefficient comes back as it
    is, whatever the index. *)
Lemma polyEval_threshold_one (c0 : Z) (coeff : list Z) (threshold x : Z) :
  threshold <= 1 ->
  polyEval (PrimaryPolynomial.mk (c0 :: coeff) threshold) x = Some c0.
Proof.
  intros Ht. unfold polyEval.
  cbn [PrimaryPolynomial.coeff PrimaryPolynomial.threshold nth_error].
  replace (Z.to_nat (threshold - 1)) with 0%nat by lia. reflexivity.
Qed.

(** ** Shares and commitments *)

Lemma sequence_nth_error {A : Type} (l : list (option A)) : forall r i,
  sequence l = Some r ->
  nth_error l i = option_map Some (nth_error r i).
Proof.
  induction l as [|[a|] l IH]; intros r i Hseq; cbn [sequence] in Hseq.
  - injection Hseq as <-. destruct i; reflexivity.
  - destruct (sequence l) as [r'|] eqn:E; [|discriminate].
    injection Hseq as <-. destruct i as [|i]; [reflexivity|].
    cbn [nth_error]. apply IH. reflexivity.
  - discriminate.
Qed.

Lemma sequence_length {A : Type} (l : list (option A)) : forall r,
  sequence l = Some r -> length r = length l.
Proof.
  induction l as [|[a|] l IH]; intros r Hseq; cbn [sequence] in Hseq.
  - injection Hseq as <-. reflexivity.
  - destruct (sequence l) as [r'|] eqn:E; [|discriminate].
    injection Hseq as <-. cbn [length]. f_equal. apply IH. reflexivity.
  - discriminate.
Qed.

(** X5: for a polynomial with at least [threshold] coefficients,
    [getShares] returns [n] shares, the one at position [i] being
    [polyEval] at index [i + 1]: the indices are 1..n, never 0. *)
Theorem getShares_spec (coeff : list Z) (threshold n : Z) :
  1 <= threshold <= Z.of_nat (length coeff) -> 0 <= n ->
  exists shares,
    getShares (PrimaryPolynomial.mk coeff threshold) n = Some shares /\
    length shares = Z.to_nat n /\
    forall i, (i < Z.to_nat n)%nat ->
      nth_error shares i =
      polyEval (PrimaryPolynomial.mk coeff threshold) (Z.of_nat i + 1).
Proof.
  intros Ht Hn. unfold getShares.
  destruct (Z.ltb_spec n 0) as [Hneg|_]; [lia|].
  destruct (sequence_all_some
              (fun i => polyEval (PrimaryPolynomial.mk coeff threshold)
                          (Z.of_nat i + 1))
              (seq 0 (Z.to_nat n))) as (shares & Hshares & Hsl).
  { intros i _. apply polyEval_in_range. exact Ht. }
  exists shares. rewrite length_seq in Hsl.
  split; [exact Hshares|]. split; [exact Hsl|].
  intros i Hi.
  pose proof (sequence_nth_error _ _ i Hshares) as Hnth.
  rewrite nth_error_map, nth_error_seq in Hnth.
  destruct (Nat.ltb_spec i (Z.to_nat n)) as [_|Hge]; [|lia].
  cbn [option_map Nat.add] in Hnth.
  destruct (nth_error shares i) as [v|] eqn:E; cbn [option_map] in Hnth.
  - congruence.
  - discriminate.
Qed.

Lemma getShares_spec_witness :
  (1 <= 2 <= Z.of_nat (length [4; 9])) /\ 0 <= 3 /\
  exists shares,
    getShares (PrimaryPolynomial.mk [4; 9] 2) 3 = Some shares /\
    length shares = Z.to_nat 3 /\
    forall i, (i < Z.to_nat 3)%nat ->
      nth_error shares i =
      polyEval (PrimaryPolynomial.mk [4; 9] 2) (Z.of_nat i + 1).
Proof.
  assert (H1 : 1 <= 2 <= Z.of_nat (length [4; 9])) by (simpl; lia).
  assert (H2 : 0 <= 3) by lia.
  split; [exact H1|]. split; [exact H2|].
  exact (getShares_spec [4; 9] 2 3 H1 H2).
Defined.

Lemma getShares_constant (c0 : Z) (coeff : list Z) (threshold n : Z) :
  threshold <= 1 -> 0 <= n ->
  getShares (PrimaryPolynomial.mk (c0 :: coeff) threshold) n =
  Some (repeat c0 (Z.to_nat n)).
Proof.
  intros Ht Hn. unfold getShares.
  destruct (Z.ltb_spec n 0) as [Hneg|_]; [lia|].
  generalize 0%nat as start. induction (Z.to_nat n) as [|m IH]; intros start.
  - reflexivity.
  - cbn [seq map sequence repeat].
    rewrite polyEval_threshold_one by exact Ht.
    rewrite IH. reflexivity.
Qed.

(** X6: with a threshold of 1 (or less) every share is the first
    coefficient, the secret, itself. *)
Theorem getShares_threshold_one (c0 : Z) (coeff : list Z) (threshold n : Z) :
  threshold <= 1 -> 0 <= n ->
  getShares (PrimaryPolynomial.mk (c0 :: coeff) threshold) n =
  Some (repeat c0 (Z.to_nat n)).
Proof. apply getShares_constant. Qed.

Lemma getShares_threshold_one_witness :
  1 <= 1 /\ 0 <= 5 /\
  getShares (PrimaryPolynomial.mk [42] 1) 5 = Some (repeat 42 (Z.to_nat 5)).
Proof.
  assert (H1 : 1 <= 1) by lia.
  assert (H2 : 0 <= 5) by lia.
  split; [exact H1|]. split; [exact H2|].
  exact (getShares_threshold_one 42 [] 1 5 H1 H2).
Defined.

(** A negative count is a panic in [make]. *)
Lemma getShares_negative (polynomial : PrimaryPolynomial) (n : Z) :
  n < 0 -> getShares polynomial n = None.
Proof.
  intros Hn. unfold getShares.
  destruct (Z.ltb_spec n 0); [reflexivity|lia].
Qed.

Lemma commit_at_in_range (s : KoblitzCurve) (coeff : list Z) (i : nat) (ci : Z) :
  nth_error coeff i = Some ci ->
  match nth_error coeff i with
  | None => None
  | Some ci =>
      let '(x, y) := ScalarBaseMult s (Bytes ci) in Some (Point.mk x y)
  end = Some (pt_of (ScalarBaseMult s (Bytes ci))).
Proof.
  intros ->. unfold pt_of. destruct (ScalarBaseMult s (Bytes ci)). reflexivity.
Qed.

(** X7: [getCommit] returns one point per coefficient below the
    threshold, [coeff[i] * G] in order, and panics exactly when the
    threshold is negative or exceeds the number of coefficients. *)
Theorem getCommit_spec (s : KoblitzCurve) (coeff : list Z) (threshold : Z) :
  (getCommit s (PrimaryPolynomial.mk coeff threshold) threshold = None <->
   threshold < 0 \/ Z.of_nat (length coeff) < threshold) /\
  forall commits,
    getCommit s (PrimaryPolynomial.mk coeff threshold) threshold = Some commits ->
    length commits = Z.to_nat threshold /\
    forall i ci, (i < Z.to_nat threshold)%nat ->
      nth_error coeff i = Some ci ->
      nth_error commits i = Some (pt_of (ScalarBaseMult s (Bytes ci))).
Proof.
  unfold getCommit. cbn [PrimaryPolynomial.coeff].
  destruct (Z.ltb_spec threshold 0) as [Hneg|Hpos].
  - split; [|discriminate]. split; [left; exact Hneg|reflexivity].
  - set (f := fun i : nat =>
                match nth_error coeff i with
                | None => None
                | Some ci =>
                    let '(x, y) := ScalarBaseMult s (Bytes ci) in
                    Some (Point.mk x y)
                end).
    split.
    + split.
      * intros Hnone. right.
        destruct (Z.lt_ge_cases (Z.of_nat (length coeff)) threshold)
          as [Hlt|Hge]; [exact Hlt|].
        destruct (sequence_all_some f (seq 0 (Z.to_nat threshold)))
          as (r & Hr & _); [|congruence].
        intros i Hi. apply in_seq in Hi.
        destruct (nth_error_in_range coeff i) as [ci Hci]; [lia|].
        unfold f. rewrite (commit_at_in_range s coeff i ci Hci). discriminate.
      * intros [Hlt|Hlt]; [lia|].
        destruct (sequence (map f (seq 0 (Z.to_nat threshold)))) as [r|] eqn:E;
          [|reflexivity].
        pose proof (sequence_nth_error _ _ (length coeff) E) as Hnth.
        rewrite nth_error_map, nth_error_seq in Hnth.
        destruct (Nat.ltb_spec (length coeff) (Z.to_nat threshold)) as [_|Hge];
          [|lia].
        cbn [option_map Nat.add] in Hnth. unfold f in Hnth.
        assert (Hnone : nth_error coeff (length coeff) = None)
          by (apply nth_error_None; lia).
        rewrite Hnone in Hnth.
        destruct (nth_error r (length coeff)); discriminate.
    + intros commits Hc.
      pose proof (sequence_length _ _ Hc) as Hl.
      rewrite length_map, length_seq in Hl. split; [exact Hl|].
      intros i ci Hi Hci.
      pose proof (sequence_nth_error _ _ i Hc) as Hnth.
      rewrite nth_error_map, nth_error_seq in Hnth.
      destruct (Nat.ltb_spec i (Z.to_nat threshold)) as [_|Hge]; [|lia].
      cbn [option_map Nat.add] in Hnth. unfold f in Hnth.
      rewrite (commit_at_in_range s coeff i ci Hci) in Hnth.
      destruct (nth_error commits i); cbn [option_map] in Hnth; congruence.
Qed.

(** X8: [getCommit] does not see the sign of a coefficient: [Bytes]
    encodes the absolute value, so a polynomial and its negation get the
    same commitments. *)
Theorem getCommit_sign_blind (s : KoblitzCurve) (coeff : list Z)
    (threshold : Z) :
  getCommit s (PrimaryPolynomial.mk (map Z.opp coeff) threshold) threshold =
  getCommit s (PrimaryPolynomial.mk coeff threshold) threshold.
Proof.
  unfold getCommit. cbn [PrimaryPolynomial.coeff].
  destruct (threshold <? 0); [reflexivity|].
  f_equal. apply map_ext. intros i.
  rewrite nth_error_map.
  destruct (nth_error coeff i) as [ci|]; [|reflexivity].
  cbn [option_map]. rewrite <- (Bytes_abs (- ci)), Z.abs_opp, Bytes_abs.
  reflexivity.
Qed.

(** ** More on proof generation *)

(** X9: the response satisfies the Schnorr relation modulo the field
    prime, lies strictly between [-fieldOrder] and [fieldOrder], and one
    draw is consumed. *)
Theorem createDlEQProof_response_mod_fieldOrder (s : KoblitzCurve)
    (Sum256 : list byte -> list byte) (reader : nat -> Z)
    (secret : Z) (nodePubKey : Point) (k : nat) :
  let run := createDlEQProof s Sum256 reader secret nodePubKey k in
  let v := reader k mod fieldOrder in
  (DLEQProof.r (fst run) + DLEQProof.c (fst run) * secret - v) mod fieldOrder = 0 /\
  - fieldOrder < DLEQProof.r (fst run) < fieldOrder /\
  0 <= DLEQProof.c (fst run) /\
  snd run = S k.
Proof.
  rewrite createDlEQProof_eq. cbn [fst snd DLEQProof.r DLEQProof.c].
  unfold proof_r, proof_v.
  set (c := proof_c s Sum256 reader secret nodePubKey k).
  assert (Hp : 0 < fieldOrder) by reflexivity.
  pose proof (Z.mod_pos_bound (reader k) fieldOrder Hp) as Hv.
  pose proof (Z.mod_pos_bound (c * secret) fieldOrder Hp) as Hm.
  split; [|split; [lia|split; [apply SetBytes_nonneg|reflexivity]]].
  replace (reader k mod fieldOrder - (c * secret) mod fieldOrder
           + c * secret - reader k mod fieldOrder)
    with (c * secret - (c * secret) mod fieldOrder) by lia.
  rewrite Zminus_mod_idemp_r, Z.sub_diag. reflexivity.
Qed.

Section GroupChecks.

Variable s : KoblitzCurve.
Hypothesis laws : GroupLaws s.
Variable Sum256 : list byte -> list byte.
Variable reader : nat -> Z.

Lemma ScalarMult_base (d a : Z) :
  0 <= d -> 0 <= a ->
  pt_of (ScalarMult s (Point.x (pt_of (ScalarBaseMult s (Bytes d))))
                      (Point.y (pt_of (ScalarBaseMult s (Bytes d))))
                      (Bytes a))
  = pt_of (ScalarBaseMult s (Bytes (d * a))).
Proof.
  intros Hd Ha. unfold pt_of at 2 3. cbn [Point.x Point.y].
  rewrite (mult_mult s laws) by lia. reflexivity.
Qed.

(** The second check, for a public key [d * G]. *)
Lemma checkH_createDlEQProof (secret d : Z) (k : nat) :
  0 <= secret -> 0 <= d ->
  let Y := pt_of (ScalarBaseMult s (Bytes d)) in
  let pf := fst (createDlEQProof s Sum256 reader secret Y k) in
  checkH s pf Y = true <->
  (d * (fieldOrder * (DLEQProof.c pf * secret / fieldOrder)))
    mod generatorOrder = 0.
Proof.
  intros Hs Hd Y. rewrite createDlEQProof_eq. cbn [fst]. unfold checkH.
  cbn [DLEQProof.r DLEQProof.c DLEQProof.xH DLEQProof.vH].
  set (c := proof_c s Sum256 reader secret Y k).
  set (r := proof_r s Sum256 reader secret Y k).
  assert (Hn : 0 < generatorOrder) by reflexivity.
  assert (Hv : 0 <= proof_v reader k)
    by (apply Z.mod_pos_bound; reflexivity).
  assert (Hrm : 0 <= r mod generatorOrder) by (apply Z.mod_pos_bound; exact Hn).
  assert (Hcm : 0 <= c mod generatorOrder) by (apply Z.mod_pos_bound; exact Hn).
  unfold proof_xH, proof_vH. unfold Y at 1 2 3 4 5.
  rewrite !ScalarMult_base by lia.
  rewrite (smul_base s laws) by exact Hd.
  rewrite (smul_base s laws) by nia.
  rewrite (padd_base s laws) by nia.
  rewrite point_eqb_pt_of, (base_order s laws) by nia.
  rewrite mod_eq_iff by exact Hn.
  assert (E : (d * (r mod generatorOrder)
               + d * secret * (c mod generatorOrder)
               - d * proof_v reader k) mod generatorOrder
              = (d * (fieldOrder * (c * secret / fieldOrder)))
                  mod generatorOrder).
  { apply mod_eq_iff; [exact Hn|].
    pose proof (Z.div_mod r generatorOrder ltac:(discriminate)) as Hr.
    pose proof (Z.div_mod c generatorOrder ltac:(discriminate)) as Hc.
    pose proof (Z.div_mod (c * secret) fieldOrder ltac:(discriminate)) as Hd'.
    assert (Hrdef : r = proof_v reader k - (c * secret) mod fieldOrder)
      by reflexivity.
    revert Hr Hc Hd' Hrdef.
    generalize (c * secret / fieldOrder) as q.
    generalize ((c * secret) mod fieldOrder) as m.
    generalize (r mod generatorOrder) as rm. generalize (r / generatorOrder) as rq.
    generalize (c mod generatorOrder) as cm. generalize (c / generatorOrder) as cq.
    generalize (proof_v reader k) as v.
    intros v cq cm rq rm m q Hr Hc Hd' Hrdef.
    replace (d * rm + d * secret * cm - d * v - d * (fieldOrder * q))
      with ((- d * rq - d * secret * cq) * generatorOrder) by nia.
    apply Z_mod_mult. }
  rewrite E. reflexivity.
Qed.

(** X10: when [c * secret] stays below [fieldOrder], so that its
    reduction changes nothing, both group checks of the verification
    hold for a proof made for the public key [d * G]. *)
Theorem createDlEQProof_checks_without_wrap (secret d : Z) (k : nat) :
  0 <= secret -> 0 <= d ->
  let Y := pt_of (ScalarBaseMult s (Bytes d)) in
  let pf := fst (createDlEQProof s Sum256 reader secret Y k) in
  DLEQProof.c pf * secret < fieldOrder ->
  checkG s pf = true /\ checkH s pf Y = true.
Proof.
  intros Hs Hd Y pf Hsmall.
  assert (Hc : 0 <= DLEQProof.c pf).
  { unfold pf. rewrite createDlEQProof_eq. apply SetBytes_nonneg. }
  assert (Hq : DLEQProof.c pf * secret / fieldOrder = 0)
    by (apply Z.div_small; nia).
  split.
  - apply (checkG_createDlEQProof s laws Sum256 reader secret Y k Hs).
    fold pf. rewrite Hq, Z.mul_0_r. reflexivity.
  - apply (checkH_createDlEQProof secret d k Hs Hd).
    fold Y. fold pf. rewrite Hq, !Z.mul_0_r. reflexivity.
Qed.

End GroupChecks.

Lemma createDlEQProof_checks_without_wrap_witness :
  0 <= 1 /\ 0 <= 5 /\
  DLEQProof.c
    (fst (createDlEQProof Dlog.curve Keccak.Sum256 (fun _ => 9) 1
            (pt_of (ScalarBaseMult Dlog.curve (Bytes 5))) 0%nat)) * 1
    < fieldOrder /\
  checkG Dlog.curve
    (fst (createDlEQProof Dlog.curve Keccak.Sum256 (fun _ => 9) 1
            (pt_of (ScalarBaseMult Dlog.curve (Bytes 5))) 0%nat)) = true /\
  checkH Dlog.curve
    (fst (createDlEQProof Dlog.curve Keccak.Sum256 (fun _ => 9) 1
            (pt_of (ScalarBaseMult Dlog.curve (Bytes 5))) 0%nat))
    (pt_of (ScalarBaseMult Dlog.curve (Bytes 5))) = true.
Proof.
  assert (H1 : 0 <= 1) by lia.
  assert (H2 : 0 <= 5) by lia.
  assert (H3 : DLEQProof.c
    (fst (createDlEQProof Dlog.curve Keccak.Sum256 (fun _ => 9) 1
            (pt_of (ScalarBaseMult Dlog.curve (Bytes 5))) 0%nat)) * 1
    < fieldOrder) by (vm_compute; reflexivity).
  split; [exact H1|]. split; [exact H2|]. split; [exact H3|].
  exact (createDlEQProof_checks_without_wrap Dlog.curve Dlog_laws
           Keccak.Sum256 (fun _ => 9) 1 5 0%nat H1 H2 H3).
Defined.

(** X11: the batch consumes one draw per node when the lengths agree and
    none when they differ. *)
Theorem batchCreateDLEQProof_draws (s : KoblitzCurve)
    (Sum256 : list byte -> list byte) (reader : nat -> Z)
    (nodes : list Point) (shares : list PrimaryShares) (k : nat) :
  snd (batchCreateDLEQProof s Sum256 reader nodes shares k) =
  if Nat.eqb (length nodes) (length shares)
  then (k + length nodes)%nat else k.
Proof.
  unfold batchCreateDLEQProof.
  destruct (Nat.eqb_spec (length nodes) (length shares)) as [Hlen|Hlen];
    cbn [negb].
  - pose proof (batchCreateDLEQProof_loop_spec s Sum256 reader nodes shares k Hlen)
      as (Hk & _).
    unfold bind, ret.
    destruct (batchCreateDLEQProof_loop s Sum256 reader nodes shares k).
    exact Hk.
  - reflexivity.
Qed.

(** ** More on [encShares] *)

(** A threshold of 0 or less is a panic, before any draw. *)
Theorem encShares_panics (s : KoblitzCurve) (reader : nat -> Z)
    (nodes : list Point) (secret threshold : Z) (k : nat) :
  threshold <= 0 ->
  encShares s reader nodes secret threshold k = (None, k).
Proof.
  intros Ht. unfold encShares.
  destruct (Z.leb_spec threshold 0); [reflexivity|lia].
Qed.

Lemma encShares_panics_witness :
  0 <= 0 /\
  encShares S256.curve (fun _ => 1) [G S256.curve] 7 0 3%nat = (None, 3%nat).
Proof.
  assert (H1 : 0 <= 0) by lia.
  split; [exact H1|].
  exact (encShares_panics S256.curve (fun _ => 1) [G S256.curve] 7 0 3%nat H1).
Defined.

(** X12: with a threshold of 1 nothing is drawn, every share is the
    secret itself and the only commitment is [secret * G]. *)
Theorem encShares_threshold_one (s : KoblitzCurve) (reader : nat -> Z)
    (nodes : list Point) (secret : Z) (k : nat) :
  encShares s reader nodes secret 1 k =
  (Some (Build_encSharesLocals
           (repeat 0 (length nodes))
           (repeat secret (length nodes))
           [pt_of (ScalarBaseMult s (Bytes secret))]), k).
Proof.
  unfold encShares. change (1 <=? 0) with false. cbv iota.
  change (Z.to_nat (1 - 1)) with 0%nat. cbn [replicateM]. unfold bind, ret.
  rewrite getShares_constant by lia.
  unfold getCommit. change (1 <? 0) with false. cbv iota.
  change (Z.to_nat 1) with 1%nat.
  cbn [seq map PrimaryPolynomial.coeff nth_error sequence].
  unfold pt_of. destruct (ScalarBaseMult s (Bytes secret)) as [x y].
  cbn [fst snd]. rewrite Nat2Z.id. reflexivity.
Qed.

(** ** More on the hash-to-point search *)







(** ** Node configuration *)

Lemma isFlagPassed_acc (visited : list string) (name : string) :
  forall found,
  fold_left (fun found f => if String.eqb f name then true else found)
            visited found = true <->
  found = true \/ In name visited.
Proof.
  induction visited as [|f visited IH]; intros found; cbn [fold_left In].
  - tauto.
  - rewrite IH. destruct (String.eqb_spec f name) as [->|Hne].
    + tauto.
    + split; [intros [H0|H0]; auto|intros [H0|[H0|H0]]; auto; contradiction].
Qed.

Lemma isFlagPassed_In (visited : list string) (name : string) :
  isFlagPassed visited name = true <-> In name visited.
Proof.
  unfold isFlagPassed. rewrite isFlagPassed_acc.
  split; [intros [H0|H0]; [discriminate|exact H0]|auto].
Qed.

Lemma isFlagPassed_not_In (visited : list string) (name : string) :
  ~ In name visited -> isFlagPassed visited name = false.
Proof.
  intros Hn. destruct (isFlagPassed visited name) eqn:E; [|reflexivity].
  apply isFlagPassed_In in E. contradiction.
Qed.

Local Open Scope string_scope.

(** A choice between two configs is a config of choices. *)
Lemma Config_if_mk (b : bool)
    (x0 y0 : string) (x1 y1 : string) (x2 y2 : string) (x3 y3 : string)
    (x4 y4 : string) (x5 y5 : string) (x6 y6 : string) (x7 y7 : string)
    (x8 y8 : string) (x9 y9 : Z) (x10 y10 : Z) (x11 y11 : Z) (x12 y12 : Z)
    (x13 y13 : Z) (x14 y14 : string) (x15 y15 : Z) (x16 y16 : bool)
    (x17 y17 : string) (x18 y18 : bool) (x19 y19 : string) (x20 y20 : string)
    (x21 y21 : string) (x22 y22 : bool) (x23 y23 : bool) (x24 y24 : string)
    (x25 y25 : string) (x26 y26 : string) (x27 y27 : string)
    (x28 y28 : string) :
  (if b then Config.mk
     x0 x1 x2 x3 x4 x5 x6 x7 x8 x9 x10 x11 x12 x13 x14 x15 x16 x17 x18 x19
     x20 x21 x22 x23 x24 x25 x26 x27 x28
   else Config.mk
     y0 y1 y2 y3 y4 y5 y6 y7 y8 y9 y10 y11 y12 y13 y14 y15 y16 y17 y18 y19
     y20 y21 y22 y23 y24 y25 y26 y27 y28)
  = Config.mk
      (if b then x0 else y0) (if b then x1 else y1) (if b then x2 else y2)
      (if b then x3 else y3) (if b then x4 else y4) (if b then x5 else y5)
      (if b then x6 else y6) (if b then x7 else y7) (if b then x8 else y8)
      (if b then x9 else y9) (if b then x10 else y10)
      (if b then x11 else y11) (if b then x12 else y12)
      (if b then x13 else y13) (if b then x14 else y14)
      (if b then x15 else y15) (if b then x16 else y16)
      (if b then x17 else y17) (if b then x18 else y18)
      (if b then x19 else y19) (if b then x20 else y20)
      (if b then x21 else y21) (if b then x22 else y22)
      (if b then x23 else y23) (if b then x24 else y24)
      (if b then x25 else y25) (if b then x26 else y26)
      (if b then x27 else y27) (if b then x28 else y28).
Proof. destruct b; reflexivity. Qed.

Lemma if_same {A : Type} (b : bool) (a : A) : (if b then a else a) = a.
Proof. destruct b; reflexivity. Qed.

Lemma if_again {A : Type} (b : bool) (a a' : A) :
  (if b then a else if b then a else a') = if b then a else a'.
Proof. destruct b; reflexivity. Qed.

Ltac push_flag_choices :=
  repeat (cbn [Config.set_ShouldRegister Config.set_IsDebug
               Config.set_EthPrivateKey Config.set_ProvidedIPAddress
               Config.set_CPUProfileToFile Config.set_EthConnection
               Config.set_NodeListAddress Config.set_BasePath];
          rewrite Config_if_mk, ?if_same).

(** [mergeWithFlags] field by field. *)
Lemma mergeWithFlags_fields (visited : list string) (c flagConfig : Config) :
  mergeWithFlags visited c flagConfig =
  Config.mk
    (Config.HttpServerPort c)
    (Config.MainServerAddress c)
    (if isFlagPassed visited "ethConnection"
     then Config.EthConnection flagConfig else Config.EthConnection c)
    (if isFlagPassed visited "ethprivateKey"
     then Config.EthPrivateKey flagConfig else Config.EthPrivateKey c)
    (Config.BftURI c)
    (Config.ABCIServer c)
    (Config.TMP2PListenAddress c)
    (Config.P2PListenAddress c)
    (if isFlagPassed visited "nodeListAddress"
     then Config.NodeListAddress flagConfig else Config.NodeListAddress c)
    (Config.NumberOfNodes c)
    (Config.Threshold c)
    (Config.NumMalNodes c)
    (Config.KeysPerEpoch c)
    (Config.KeyBufferTriggerPercentage c)
    (if isFlagPassed visited "basePath"
     then Config.BasePath flagConfig else Config.BasePath c)
    (Config.InitEpoch c)
    (if isFlagPassed visited "register"
     then Config.ShouldRegister flagConfig else Config.ShouldRegister c)
    (if isFlagPassed visited "cpuProfile"
     then Config.CPUProfileToFile flagConfig else Config.CPUProfileToFile c)
    (if isFlagPassed visited "debug"
     then Config.IsDebug flagConfig else Config.IsDebug c)
    (if isFlagPassed visited "ipAddress"
     then Config.ProvidedIPAddress flagConfig else Config.ProvidedIPAddress c)
    (Config.Endpoint c)
    (Config.LogLevel c)
    (Config.ServeUsingTLS c)
    (Config.UseAutoCert c)
    (Config.AutoCertCacheDir c)
    (Config.PublicURL c)
    (Config.ServerCert c)
    (Config.ServerKey c)
    (Config.GoogleClientID c).
Proof.
  unfold mergeWithFlags. destruct c, flagConfig.
  cbn [Config.HttpServerPort Config.MainServerAddress Config.EthConnection Config.EthPrivateKey Config.BftURI Config.ABCIServer Config.TMP2PListenAddress Config.P2PListenAddress Config.NodeListAddress Config.NumberOfNodes Config.Threshold Config.NumMalNodes Config.KeysPerEpoch Config.KeyBufferTriggerPercentage Config.BasePath Config.InitEpoch Config.ShouldRegister Config.CPUProfileToFile Config.IsDebug Config.ProvidedIPAddress Config.Endpoint Config.LogLevel Config.ServeUsingTLS Config.UseAutoCert Config.AutoCertCacheDir Config.PublicURL Config.ServerCert Config.ServerKey Config.GoogleClientID].
  push_flag_choices. reflexivity.
Qed.

(** [createConfigWithFlags] field by field. *)
Lemma createConfigWithFlags_fields (fl : Flags) (c : Config) :
  createConfigWithFlags fl c =
  (Config.mk
    (Config.HttpServerPort c)
    (Config.MainServerAddress c)
    (if isFlagPassed (visited fl) "ethConnection"
     then ethConnection fl else Config.EthConnection c)
    (if isFlagPassed (visited fl) "ethprivateKey"
     then ethPrivateKey fl else Config.EthPrivateKey c)
    (Config.BftURI c)
    (Config.ABCIServer c)
    (Config.TMP2PListenAddress c)
    (Config.P2PListenAddress c)
    (if isFlagPassed (visited fl) "nodeListAddress"
     then nodeListAddress fl else Config.NodeListAddress c)
    (Config.NumberOfNodes c)
    (Config.Threshold c)
    (Config.NumMalNodes c)
    (Config.KeysPerEpoch c)
    (Config.KeyBufferTriggerPercentage c)
    (if isFlagPassed (visited fl) "basePath"
     then basePath fl else Config.BasePath c)
    (Config.InitEpoch c)
    (if isFlagPassed (visited fl) "register"
     then register fl else Config.ShouldRegister c)
    (if isFlagPassed (visited fl) "cpuProfile"
     then cpuProfile fl else Config.CPUProfileToFile c)
    (if isFlagPassed (visited fl) "debug"
     then debug fl else Config.IsDebug c)
    (if isFlagPassed (visited fl) "ipAddress"
     then ipAddress fl else Config.ProvidedIPAddress c)
    (Config.Endpoint c)
    (Config.LogLevel c)
    (Config.ServeUsingTLS c)
    (Config.UseAutoCert c)
    (Config.AutoCertCacheDir c)
    (Config.PublicURL c)
    (Config.ServerCert c)
    (Config.ServerKey c)
    (Config.GoogleClientID c),
   configPath fl).
Proof.
  unfold createConfigWithFlags. destruct c.
  cbn [Config.HttpServerPort Config.MainServerAddress Config.EthConnection Config.EthPrivateKey Config.BftURI Config.ABCIServer Config.TMP2PListenAddress Config.P2PListenAddress Config.NodeListAddress Config.NumberOfNodes Config.Threshold Config.NumMalNodes Config.KeysPerEpoch Config.KeyBufferTriggerPercentage Config.BasePath Config.InitEpoch Config.ShouldRegister Config.CPUProfileToFile Config.IsDebug Config.ProvidedIPAddress Config.Endpoint Config.LogLevel Config.ServeUsingTLS Config.UseAutoCert Config.AutoCertCacheDir Config.PublicURL Config.ServerCert Config.ServerKey Config.GoogleClientID].
  push_flag_choices. reflexivity.
Qed.

Local Close Scope string_scope.

Lemma mergeWithFlags_unset (visited : list string) (c flagConfig : Config) :
  (forall name, In name mergeFlagNames -> ~ In name visited) ->
  mergeWithFlags visited c flagConfig = c.
Proof.
  intros Hnone. unfold mergeWithFlags.
  rewrite !isFlagPassed_not_In by (apply Hnone; cbn; tauto).
  reflexivity.
Qed.

(** X15: when none of the eight flags was set on the command line,
    [mergeWithFlags] leaves the config as it is, whatever [flagConfig]
    holds. *)
Theorem mergeWithFlags_no_flags (visited : list string) (c flagConfig : Config) :
  (forall name, In name mergeFlagNames -> ~ In name visited) ->
  mergeWithFlags visited c flagConfig = c.
Proof. apply mergeWithFlags_unset. Qed.

Lemma mergeWithFlags_no_flags_witness :
  (forall name, In name mergeFlagNames -> ~ In name ["configPath"%string]) /\
  mergeWithFlags ["configPath"%string] defaultConfigSettings
    (Config.set_IsDebug true defaultConfigSettings) = defaultConfigSettings.
Proof.
  assert (H1 : forall name, In name mergeFlagNames ->
                            ~ In name ["configPath"%string]).
  { intros name Hin [Heq|[]]. subst name. cbn in Hin.
    repeat (destruct Hin as [Hin|Hin]; [discriminate|]). exact Hin. }
  split; [exact H1|].
  exact (mergeWithFlags_no_flags ["configPath"%string] defaultConfigSettings
           (Config.set_IsDebug true defaultConfigSettings) H1).
Defined.

(** X16: merging the same flag config twice is merging it once. *)
Theorem mergeWithFlags_idempotent (visited : list string)
    (c flagConfig : Config) :
  mergeWithFlags visited (mergeWithFlags visited c flagConfig) flagConfig =
  mergeWithFlags visited c flagConfig.
Proof.
  rewrite !mergeWithFlags_fields.
  cbn [Config.HttpServerPort Config.MainServerAddress Config.EthConnection
       Config.EthPrivateKey Config.BftURI Config.ABCIServer
       Config.TMP2PListenAddress Config.P2PListenAddress
       Config.NodeListAddress Config.NumberOfNodes Config.Threshold
       Config.NumMalNodes Config.KeysPerEpoch
       Config.KeyBufferTriggerPercentage Config.BasePath Config.InitEpoch
       Config.ShouldRegister Config.CPUProfileToFile Config.IsDebug
       Config.ProvidedIPAddress Config.Endpoint Config.LogLevel
       Config.ServeUsingTLS Config.UseAutoCert Config.AutoCertCacheDir
       Config.PublicURL Config.ServerCert Config.ServerKey
       Config.GoogleClientID].
  rewrite !if_again. reflexivity.
Qed.

Local Open Scope string_scope.

Lemma if_inner {A : Type} (b : bool) (a d a' : A) :
  (if b then (if b then a else d) else a') = if b then a else a'.
Proof. destruct b; reflexivity. Qed.

Lemma if_congr {A : Type} (b : bool) (a1 a2 a' : A) :
  (b = true -> a1 = a2) ->
  (if b then a1 else a') = if b then a2 else a'.
Proof. destruct b; intros E; [rewrite E|]; reflexivity. Qed.

Section LoadConfigFacts.

Variable readAndMarshallJSONConfig : string -> Config -> Config.
Variable envParse : Config -> Config.
Variable Sprintf : string -> string.

Lemma loadConfig_eq (fl : Flags) (configPath0 : string) :
  loadConfig readAndMarshallJSONConfig envParse Sprintf fl configPath0 =
  if negb (String.eqb (Config.ProvidedIPAddress (merged readAndMarshallJSONConfig envParse fl configPath0)) "")
  then
    Config.set_P2PListenAddress
      (Sprintf (Config.P2PListenAddress
                  (Config.set_MainServerAddress
                     (Config.ProvidedIPAddress (merged readAndMarshallJSONConfig envParse fl configPath0) ++ ":" ++
                      Config.HttpServerPort (merged readAndMarshallJSONConfig envParse fl configPath0))
                     (merged readAndMarshallJSONConfig envParse fl configPath0))))
      (Config.set_MainServerAddress
         (Config.ProvidedIPAddress (merged readAndMarshallJSONConfig envParse fl configPath0) ++ ":" ++
          Config.HttpServerPort (merged readAndMarshallJSONConfig envParse fl configPath0))
         (merged readAndMarshallJSONConfig envParse fl configPath0))
  else merged readAndMarshallJSONConfig envParse fl configPath0.
Proof. reflexivity. Qed.

Lemma merged_fields (fl : Flags) (configPath0 : string) :
  merged readAndMarshallJSONConfig envParse fl configPath0 =
  let c := file_and_env readAndMarshallJSONConfig envParse fl configPath0 in
  Config.mk
    (Config.HttpServerPort c) (Config.MainServerAddress c)
    (if isFlagPassed (visited fl) "ethConnection"
     then ethConnection fl else Config.EthConnection c)
    (if isFlagPassed (visited fl) "ethprivateKey"
     then ethPrivateKey fl else Config.EthPrivateKey c)
    (Config.BftURI c) (Config.ABCIServer c) (Config.TMP2PListenAddress c)
    (Config.P2PListenAddress c)
    (if isFlagPassed (visited fl) "nodeListAddress"
     then nodeListAddress fl else Config.NodeListAddress c)
    (Config.NumberOfNodes c) (Config.Threshold c) (Config.NumMalNodes c)
    (Config.KeysPerEpoch c) (Config.KeyBufferTriggerPercentage c)
    (if isFlagPassed (visited fl) "basePath"
     then basePath fl else Config.BasePath c)
    (Config.InitEpoch c)
    (if isFlagPassed (visited fl) "register"
     then register fl else Config.ShouldRegister c)
    (if isFlagPassed (visited fl) "cpuProfile"
     then cpuProfile fl else Config.CPUProfileToFile c)
    (if isFlagPassed (visited fl) "debug"
     then debug fl else Config.IsDebug c)
    (if isFlagPassed (visited fl) "ipAddress"
     then ipAddress fl else Config.ProvidedIPAddress c)
    (Config.Endpoint c) (Config.LogLevel c) (Config.ServeUsingTLS c)
    (Config.UseAutoCert c) (Config.AutoCertCacheDir c) (Config.PublicURL c)
    (Config.ServerCert c) (Config.ServerKey c) (Config.GoogleClientID c).
Proof.
  unfold merged. rewrite createConfigWithFlags_fields, mergeWithFlags_fields.
  cbn [fst Config.ShouldRegister Config.IsDebug Config.EthPrivateKey
       Config.ProvidedIPAddress Config.CPUProfileToFile Config.EthConnection
       Config.NodeListAddress Config.BasePath].
  rewrite !if_inner. reflexivity.
Qed.

(** X17: a flag that was not set never reaches the config: two command
    lines that set the same flags to the same values load the same
    config, whatever values sit behind the flags left unset. *)
Theorem loadConfig_ignores_unset_flags (fl fl' : Flags) (configPath0 : string) :
  same_set_flags fl fl' ->
  loadConfig readAndMarshallJSONConfig envParse Sprintf fl configPath0 =
  loadConfig readAndMarshallJSONConfig envParse Sprintf fl' configPath0.
Proof.
  intros (Hv & Hp & H1 & H2 & H3 & H4 & H5 & H6 & H7 & H8).
  assert (Hm : merged readAndMarshallJSONConfig envParse fl configPath0 = merged readAndMarshallJSONConfig envParse fl' configPath0).
  { rewrite !merged_fields. unfold file_and_env, chosen_path.
    rewrite <- Hv, <- Hp. cbv zeta.
    rewrite (if_congr _ (ethConnection fl) (ethConnection fl'))
      by (intros E; apply H6, isFlagPassed_In, E).
    rewrite (if_congr _ (ethPrivateKey fl) (ethPrivateKey fl'))
      by (intros E; apply H3, isFlagPassed_In, E).
    rewrite (if_congr _ (nodeListAddress fl) (nodeListAddress fl'))
      by (intros E; apply H7, isFlagPassed_In, E).
    rewrite (if_congr _ (basePath fl) (basePath fl'))
      by (intros E; apply H8, isFlagPassed_In, E).
    rewrite (if_congr _ (register fl) (register fl'))
      by (intros E; apply H1, isFlagPassed_In, E).
    rewrite (if_congr _ (cpuProfile fl) (cpuProfile fl'))
      by (intros E; apply H5, isFlagPassed_In, E).
    rewrite (if_congr _ (debug fl) (debug fl'))
      by (intros E; apply H2, isFlagPassed_In, E).
    rewrite (if_congr _ (ipAddress fl) (ipAddress fl'))
      by (intros E; apply H4, isFlagPassed_In, E).
    reflexivity. }
  rewrite !loadConfig_eq, Hm. reflexivity.
Qed.

(** X18: with no flag set, and a file and an environment that leave the
    defaults alone, [loadConfig] returns [defaultConfigSettings]. *)
Theorem loadConfig_defaults (fl : Flags) (configPath0 : string) :
  (forall name, In name mergeFlagNames -> ~ In name (visited fl)) ->
  (forall path, readAndMarshallJSONConfig path defaultConfigSettings
                = defaultConfigSettings) ->
  envParse defaultConfigSettings = defaultConfigSettings ->
  loadConfig readAndMarshallJSONConfig envParse Sprintf fl configPath0 =
  defaultConfigSettings.
Proof.
  intros Hnone Hfile Henv.
  assert (Hm : merged readAndMarshallJSONConfig envParse fl configPath0 = defaultConfigSettings).
  { unfold merged. rewrite mergeWithFlags_unset by exact Hnone.
    unfold file_and_env. rewrite Hfile. exact Henv. }
  rewrite loadConfig_eq, Hm. reflexivity.
Qed.

(** X19: an [ipAddress] flag set to a non-empty value becomes the
    provided address, and the main server address is that value, a colon
    and the port that the file and the environment gave. *)
Theorem loadConfig_ipAddress (fl : Flags) (configPath0 : string) :
  In "ipAddress" (visited fl) -> ipAddress fl <> "" ->
  let conf :=
    loadConfig readAndMarshallJSONConfig envParse Sprintf fl configPath0 in
  Config.ProvidedIPAddress conf = ipAddress fl /\
  Config.MainServerAddress conf =
    ipAddress fl ++ ":" ++ Config.HttpServerPort (file_and_env readAndMarshallJSONConfig envParse fl configPath0) /\
  Config.P2PListenAddress conf =
    Sprintf (Config.P2PListenAddress (file_and_env readAndMarshallJSONConfig envParse fl configPath0)).
Proof.
  intros Hin Hne conf. unfold conf. rewrite loadConfig_eq.
  assert (Hip : Config.ProvidedIPAddress (merged readAndMarshallJSONConfig envParse fl configPath0) = ipAddress fl).
  { rewrite merged_fields. cbn [Config.ProvidedIPAddress].
    apply isFlagPassed_In in Hin. rewrite Hin. reflexivity. }
  assert (Hport : Config.HttpServerPort (merged readAndMarshallJSONConfig envParse fl configPath0)
                  = Config.HttpServerPort (file_and_env readAndMarshallJSONConfig envParse fl configPath0))
    by (rewrite merged_fields; reflexivity).
  assert (Hp2p : Config.P2PListenAddress (merged readAndMarshallJSONConfig envParse fl configPath0)
                 = Config.P2PListenAddress (file_and_env readAndMarshallJSONConfig envParse fl configPath0))
    by (rewrite merged_fields; reflexivity).
  rewrite Hip, Hport.
  destruct (String.eqb_spec (ipAddress fl) "") as [E|_]; [contradiction|].
  cbn [negb]. revert Hip Hp2p.
  destruct (merged readAndMarshallJSONConfig envParse fl configPath0). cbn. intros -> ->. auto.
Qed.

End LoadConfigFacts.

Lemma same_set_flags_ip : same_set_flags ip_flags ip_flags'.
Proof.
  unfold same_set_flags, ip_flags, ip_flags'. cbn.
  repeat split; try reflexivity; intros [E|[]]; discriminate E.
Qed.

Lemma loadConfig_ignores_unset_flags_witness :
  same_set_flags ip_flags ip_flags' /\
  loadConfig (fun _ c => c) (fun c => c) (fun f => f) ip_flags "config.json" =
  loadConfig (fun _ c => c) (fun c => c) (fun f => f) ip_flags' "config.json".
Proof.
  split; [exact same_set_flags_ip|].
  exact (loadConfig_ignores_unset_flags (fun _ c => c) (fun c => c)
           (fun f => f) ip_flags ip_flags' "config.json" same_set_flags_ip).
Defined.

Lemma loadConfig_defaults_witness :
  (forall name, In name mergeFlagNames -> ~ In name (visited no_flags)) /\
  (forall path : string,
     (fun (_ : string) (c : Config) => c) path defaultConfigSettings
     = defaultConfigSettings) /\
  (fun c : Config => c) defaultConfigSettings = defaultConfigSettings /\
  loadConfig (fun _ c => c) (fun c => c) (fun f => f) no_flags "config.json" =
  defaultConfigSettings.
Proof.
  assert (H1 : forall name, In name mergeFlagNames ->
                            ~ In name (visited no_flags))
    by (intros name _ []).
  assert (H2 : forall path : string,
            (fun (_ : string) (c : Config) => c) path defaultConfigSettings
            = defaultConfigSettings) by reflexivity.
  assert (H3 : (fun c : Config => c) defaultConfigSettings
               = defaultConfigSettings) by reflexivity.
  split; [exact H1|]. split; [exact H2|]. split; [exact H3|].
  exact (loadConfig_defaults (fun _ c => c) (fun c => c) (fun f => f)
           no_flags "config.json" H1 H2 H3).
Defined.

Lemma loadConfig_ipAddress_witness :
  In "ipAddress" (visited ip_flags) /\ ipAddress ip_flags <> "" /\
  Config.ProvidedIPAddress
    (loadConfig (fun _ c => c) (fun c => c) (fun f => f) ip_flags "config.json")
    = ipAddress ip_flags /\
  Config.MainServerAddress
    (loadConfig (fun _ c => c) (fun c => c) (fun f => f) ip_flags "config.json")
    = ipAddress ip_flags ++ ":" ++
      Config.HttpServerPort
        (file_and_env (fun _ c => c) (fun c => c) ip_flags "config.json") /\
  Config.P2PListenAddress
    (loadConfig (fun _ c => c) (fun c => c) (fun f => f) ip_flags "config.json")
    = (fun f : string => f)
        (Config.P2PListenAddress
           (file_and_env (fun _ c => c) (fun c => c) ip_flags "config.json")).
Proof.
  assert (H1 : In "ipAddress" (visited ip_flags)) by (left; reflexivity).
  assert (H2 : ipAddress ip_flags <> "") by discriminate.
  split; [exact H1|]. split; [exact H2|].
  exact (loadConfig_ipAddress (fun _ c => c) (fun c => c) (fun f => f)
           ip_flags "config.json" H1 H2).
Defined.

Local Close Scope string_scope.

(** ** The bytes hashed into the challenge *)

Lemma challengeBytes_acc (points : list Point) : forall acc,
  fold_left (fun cb element =>
               (cb ++ Bytes (Point.x element)) ++ Bytes (Point.y element))
            points acc
  = acc ++ concat (map (fun P => Bytes (Point.x P) ++ Bytes (Point.y P)) points).
Proof.
  induction points as [|P points IH]; intros acc; cbn [fold_left map concat].
  - rewrite app_nil_r. reflexivity.
  - rewrite IH, <- !app_assoc. reflexivity.
Qed.

Lemma challengeBytes_concat (points : list Point) :
  challengeBytes points =
  concat (map (fun P => Bytes (Point.x P) ++ Bytes (Point.y P)) points).
Proof. unfold challengeBytes. apply challengeBytes_acc. Qed.

Lemma byte_of_Z_of_byte (b : byte) (q : Z) :
  byte_of_Z (q * 256 + Z_of_byte b) = b.
Proof.
  unfold byte_of_Z. rewrite Z.add_comm, Z_mod_plus_full.
  rewrite Z.mod_small by apply Z_of_byte_range.
  unfold Z_of_byte. rewrite N2Z.id, Byte.of_to_N. reflexivity.
Qed.

Lemma Z_of_byte_zero (b : byte) : Z_of_byte b = 0 -> b = x00.
Proof.
  intros E. rewrite <- (byte_of_Z_of_byte b 0), E. reflexivity.
Qed.

Lemma le_value_nonneg (r : list byte) : 0 <= le_value r.
Proof.
  induction r as [|b r IH]; cbn [le_value fold_right]; [lia|].
  fold (le_value r). pose proof (Z_of_byte_range b). lia.
Qed.

(** A little-endian digit string whose last digit is not zero. *)
Lemma le_value_lower (r : list byte) :
  r <> [] -> last r x00 <> x00 ->
  2 ^ (Z.of_nat (length r) - 1) <= le_value r.
Proof.
  induction r as [|b r IH]; intros Hne Hlast; [contradiction|].
  cbn [le_value fold_right]. fold (le_value r).
  pose proof (Z_of_byte_range b) as Hb.
  destruct r as [|b' r].
  - cbn [last] in Hlast. cbn [le_value fold_right length].
    change (2 ^ (Z.of_nat 1 - 1)) with 1.
    destruct (Z.eq_dec (Z_of_byte b) 0) as [E|E]; [|lia].
    apply Z_of_byte_zero in E. contradiction.
  - assert (Hr : 2 ^ (Z.of_nat (length (b' :: r)) - 1) <= le_value (b' :: r))
      by (apply IH; [discriminate|exact Hlast]).
    replace (Z.of_nat (length (b :: b' :: r)) - 1)
      with (Z.succ (Z.of_nat (length (b' :: r)) - 1))
      by (cbn [length]; lia).
    rewrite Z.pow_succ_r by (cbn [length]; lia). lia.
Qed.

Lemma digits_le_value (r : list byte) : forall fuel,
  (r = [] \/ last r x00 <> x00) -> (length r <= fuel)%nat ->
  digits fuel (le_value r) = r.
Proof.
  induction r as [|b r IH]; intros fuel Hcan Hlen.
  - destruct fuel; reflexivity.
  - destruct fuel as [|fuel]; [cbn [length] in Hlen; lia|].
    destruct Hcan as [Habs|Hlast]; [discriminate|].
    assert (Hpos : 0 < le_value (b :: r)).
    { pose proof (le_value_lower (b :: r) ltac:(discriminate) Hlast) as Hl.
      pose proof (Z.pow_pos_nonneg 2 (Z.of_nat (length (b :: r)) - 1)
                    ltac:(lia) ltac:(cbn [length]; lia)). lia. }
    cbn [digits].
    destruct (Z.leb_spec (le_value (b :: r)) 0) as [Hle|_]; [lia|].
    cbn [le_value fold_right]. fold (le_value r).
    rewrite byte_of_Z_of_byte. f_equal.
    rewrite Z.div_add_l, Z.div_small, Z.add_0_r
      by (try apply Z_of_byte_range; lia).
    apply IH; [|cbn [length] in Hlen; lia].
    destruct r as [|b' r]; [left; reflexivity|right; exact Hlast].
Qed.

Lemma canonical_rev_last (l : list byte) :
  canonical l -> rev l = [] \/ last (rev l) x00 <> x00.
Proof.
  destruct l as [|b l]; intros Hc; [left; reflexivity|right].
  cbn [rev]. rewrite last_last. exact Hc.
Qed.

(** The other round trip: a canonical byte string is the [Bytes] of the
    integer it denotes. *)
Lemma Bytes_SetBytes (l : list byte) :
  canonical l -> Bytes (SetBytes l) = l.
Proof.
  intros Hc. unfold Bytes.
  assert (E0 : SetBytes l = le_value (rev l))
    by (rewrite <- (rev_involutive l) at 1; apply SetBytes_rev).
  rewrite E0, Z.abs_eq by apply le_value_nonneg.
  rewrite digits_le_value; [apply rev_involutive|apply canonical_rev_last, Hc|].
  destruct (rev l) as [|b r] eqn:E; [cbn; lia|].
  pose proof (canonical_rev_last l Hc) as [Habs|Hlast];
    [rewrite E in Habs; discriminate|].
  rewrite E in Hlast.
  pose proof (le_value_lower (b :: r) ltac:(discriminate) Hlast) as Hl.
  assert (Hlog : Z.of_nat (length (b :: r)) - 1 <= Z.log2 (le_value (b :: r))).
  { apply Z.log2_le_pow2; [|exact Hl].
    pose proof (Z.pow_pos_nonneg 2 (Z.of_nat (length (b :: r)) - 1)
                  ltac:(lia) ltac:(cbn [length]; lia)). lia. }
  lia.
Qed.

Lemma SetBytes_canonical_inj (l l' : list byte) :
  canonical l -> canonical l' -> SetBytes l = SetBytes l' -> l = l'.
Proof.
  intros Hl Hl' E. rewrite <- (Bytes_SetBytes l Hl), <- (Bytes_SetBytes l' Hl').
  rewrite E. reflexivity.
Qed.

(** X20: the serialisation of points for the challenge is not injective
    on pairs of integers. The coordinates are written without length or
    padding, so moving a non-empty run of bytes [v] from the end of one
    coordinate to the start of the next gives a different point with
    the same bytes to hash. *)
Theorem challengeBytes_ambiguous (u v w : list byte) (rest : list Point) :
  canonical u -> canonical (u ++ v) -> canonical (v ++ w) -> canonical w ->
  v <> [] ->
  Point.mk (SetBytes (u ++ v)) (SetBytes w)
    <> Point.mk (SetBytes u) (SetBytes (v ++ w)) /\
  challengeBytes (Point.mk (SetBytes (u ++ v)) (SetBytes w) :: rest) =
  challengeBytes (Point.mk (SetBytes u) (SetBytes (v ++ w)) :: rest).
Proof.
  intros Hu Huv Hvw Hw Hv. split.
  - intros E. injection E as E1 _.
    apply (SetBytes_canonical_inj _ _ Huv Hu) in E1.
    rewrite <- (app_nil_r u) in E1 at 2. apply app_inv_head in E1.
    contradiction.
  - rewrite !challengeBytes_concat.
    cbn [map concat Point.x Point.y].
    rewrite !Bytes_SetBytes by assumption.
    rewrite <- !app_assoc. reflexivity.
Qed.

Lemma challengeBytes_ambiguous_witness :
  canonical [x01] /\ canonical ([x01] ++ [x02]) /\
  canonical ([x02] ++ [x03]) /\ canonical [x03] /\ [x02] <> [] /\
  Point.mk (SetBytes ([x01] ++ [x02])) (SetBytes [x03])
    <> Point.mk (SetBytes [x01]) (SetBytes ([x02] ++ [x03])) /\
  challengeBytes (Point.mk (SetBytes ([x01] ++ [x02])) (SetBytes [x03]) :: []) =
  challengeBytes (Point.mk (SetBytes [x01]) (SetBytes ([x02] ++ [x03])) :: []).
Proof.
  assert (H1 : canonical [x01]) by discriminate.
  assert (H2 : canonical ([x01] ++ [x02])) by discriminate.
  assert (H3 : canonical ([x02] ++ [x03])) by discriminate.
  assert (H4 : canonical [x03]) by discriminate.
  assert (H5 : [x02] <> []) by discriminate.
  split; [exact H1|]. split; [exact H2|]. split; [exact H3|]. split; [exact H4|].
  split; [exact H5|].
  exact (challengeBytes_ambiguous [x01] [x02] [x03] [] H1 H2 H3 H4 H5).
Defined.
